(** * CIN_Project: timeline playback and cable-flow animation

    A shallow embedding of the two pieces of logic in the dashboard:

    - [Timeline]: the component [FloodTimelineControl] (play / pause, the
      one-second interval, dot selection, the notification effect);
    - [Colors], [Arc], [Particles], [Junctions]: the helpers of [Root] in
      [app.jsx] ([getStatusColor], [getStatusColorString], [createArcPath],
      [generateParticles], [getCurrentParticlePositions],
      [getElectricalArcs] and the effect that refreshes the particles).

    Numbers.  Indices, counters and colour channels are integers ([Z],
    [nat]).  Coordinates and everything computed from them with
    [Math.sqrt], [Math.sin] and [Math.PI] are JavaScript doubles; they are
    embedded as real numbers ([R]), so the theorems speak about the exact
    arithmetic the formulas denote and not about binary64 rounding.  Where
    rounding decides a statement, the code is run on doubles: [Arc64] is
    [createArcPath] over the kernel's binary64 numbers. *)

From Stdlib Require Import ZArith List String Ascii Bool Arith Lia.
From Stdlib Require Import DecimalString Permutation Sorted.
From Stdlib Require Import Reals Lra Lia.
From Stdlib Require PrimFloat DecimalN.
Import ListNotations.

Set Implicit Arguments.

(** ** JavaScript helpers shared by the components *)

Module Js.

(** [n.toString()] for a non-negative integer. *)
Definition toString (n : N) : string :=
  NilEmpty.string_of_uint (N.to_uint n).

Fixpoint repeatChar (c : ascii) (n : nat) : string :=
  match n with
  | O => EmptyString
  | S k => String c (repeatChar c k)
  end.

(** [s.padStart(n, c)] with a one-character filler. *)
Definition padStart (n : nat) (c : ascii) (s : string) : string :=
  (repeatChar c (n - String.length s) ++ s)%string.

(** [a[i]] on an array, [None] standing for [undefined]. *)
Definition index {A} (a : list A) (i : Z) : option A :=
  if (i <? 0)%Z then None else nth_error a (Z.to_nat i).

(** [a % b] on integers: the remainder takes the sign of the dividend. *)
Definition rem (a b : Z) : Z := Z.rem a b.

End Js.

(** ** The timeline controller ([FloodTimelineControl]) *)

Module Timeline.

Local Open Scope Z_scope.

Record Timestep := { time : string; display : string }.

(** The live interval created by [setInterval]: its delay and the value of
    [timesteps.length] its callback closed over. *)
Record Interval := { delay : Z; modulus : Z }.

Record Props := {
  onTimestepChange : bool;            (* a listener was passed *)
  isVisible : bool;
  availableTimesteps : list Timestep
}.

(** The three [useState] cells. *)
Record State := {
  isPlaying : bool;
  currentTimestep : Z;
  playInterval : option Interval
}.

Definition initial : State :=
  {| isPlaying := false; currentTimestep := 0; playInterval := None |}.

Definition pad2 (n : nat) : string :=
  Js.padStart 2 "0"%char (Js.toString (N.of_nat n)).

Definition baseDate : string := "20221008".

Definition defaultEntry (hour minute : nat) : Timestep :=
  {| time := (baseDate ++ "_" ++ pad2 hour ++ pad2 minute ++ "00")%string;
     display := (pad2 hour ++ ":" ++ pad2 minute)%string |}.

(** The two nested loops: hours 0..23, minutes 0 and 30. *)
Definition generateDefaultTimesteps : list Timestep :=
  flat_map (fun hour => map (defaultEntry hour) [0%nat; 30%nat]) (seq 0 24).

Definition timesteps (p : Props) : list Timestep :=
  if (0 <? List.length (availableTimesteps p))%nat
  then availableTimesteps p
  else generateDefaultTimesteps.

Definition len (p : Props) : Z := Z.of_nat (List.length (timesteps p)).

Definition setIndex (st : State) (i : Z) : State :=
  {| isPlaying := isPlaying st; currentTimestep := i;
     playInterval := playInterval st |}.

(** The pause branch shared by [handlePlay] and [handleTimestepClick]:
    [setIsPlaying(false)], then the interval, if any, is cleared. *)
Definition pause (st : State) : State :=
  {| isPlaying := false;
     currentTimestep := currentTimestep st;
     playInterval := match playInterval st with
                     | Some _ => None
                     | None => None
                     end |}.

Definition handlePlay (p : Props) (st : State) : State :=
  if isPlaying st then pause st
  else {| isPlaying := true;
          currentTimestep := currentTimestep st;
          playInterval := Some {| delay := 1000; modulus := len p |} |}.

(** One firing of the interval callback:
    [setCurrentTimestep(prev => (prev + 1) % timesteps.length)].
    Nothing fires once the interval has been cleared. *)
Definition tick (st : State) : State :=
  match playInterval st with
  | Some iv => setIndex st (Js.rem (currentTimestep st + 1) (modulus iv))
  | None => st
  end.

Definition handleTimestepClick (st : State) (index : Z) : State :=
  let st1 := setIndex st index in
  if isPlaying st then pause st1 else st1.

(** The effect on [availableTimesteps]: back to index 0 for a non-empty list. *)
Definition resetEffect (p : Props) (st : State) : State :=
  if (0 <? List.length (availableTimesteps p))%nat then setIndex st 0 else st.

(** [timesteps[currentTimestep]]. *)
Definition currentEntry (p : Props) (st : State) : option Timestep :=
  Js.index (timesteps p) (currentTimestep st).

(** [timesteps[currentTimestep]?.display || "00:00"]. *)
Definition currentLabel (p : Props) (st : State) : string :=
  match currentEntry p st with
  | Some t => if String.eqb (display t) EmptyString then "00:00" else display t
  | None => "00:00"
  end%string.

(** Body of the notification effect: what it passes to the listener. *)
Definition notifyEffect (p : Props) (st : State) : list Timestep :=
  if onTimestepChange p then
    match currentEntry p st with
    | Some t => [t]
    | None => []
    end
  else [].

Definition interval_eqb (a b : Interval) : bool :=
  (delay a =? delay b) && (modulus a =? modulus b).

Definition state_eqb (a b : State) : bool :=
  Bool.eqb (isPlaying a) (isPlaying b)
  && (currentTimestep a =? currentTimestep b)
  && match playInterval a, playInterval b with
     | Some x, Some y => interval_eqb x y
     | None, None => true
     | _, _ => false
     end.

(** The dependency array [currentTimestep, onTimestepChange, timesteps] of
    the notification effect, compared across one state update with the props
    held fixed: the index differs, or [timesteps] is the default list, which
    every render allocates anew. *)
Definition notifyDepsChanged (p : Props) (before after : State) : bool :=
  negb (currentTimestep before =? currentTimestep after)
  || negb (0 <? List.length (availableTimesteps p))%nat.

(** What the listener receives when an event takes the state from [before]
    to [after]: an unchanged state is not rendered again, and the effect runs
    only when one of its dependencies changed. *)
Definition emitted (p : Props) (before after : State) : list Timestep :=
  if negb (state_eqb before after) && notifyDepsChanged p before after
  then notifyEffect p after
  else [].

Definition ticks (n : nat) (st : State) : State := Nat.iter n tick st.

End Timeline.

(** ** Status colours ([getStatusColor], [getStatusColorString]) *)

Module Colors.

Local Open Scope string_scope.

(** The [switch]: ['down'], then ['warning'] / ['high_load'], then the
    default shared with ['operational'] and ['normal']. *)
Definition getStatusColor (status : string) : list Z :=
  if status =? "down" then [255; 0; 0]%Z
  else if (status =? "warning") || (status =? "high_load") then [255; 255; 0]%Z
  else [0; 255; 0]%Z.

Definition getStatusColorString (status : string) : string :=
  if status =? "down" then "rgb(255, 0, 0)"
  else if (status =? "warning") || (status =? "high_load") then "rgb(255, 255, 0)"
  else "rgb(0, 255, 0)".

Definition isDigit (c : ascii) : bool :=
  (48 <=? nat_of_ascii c)%nat && (nat_of_ascii c <=? 57)%nat.

(** Left-to-right scan for the maximal runs of digits; [run] is the run
    being read. *)
Fixpoint digitRuns (s run : string) : list string :=
  match s with
  | EmptyString => if run =? EmptyString then [] else [run]
  | String c rest =>
      if isDigit c then digitRuns rest (run ++ String c EmptyString)
      else if run =? EmptyString then digitRuns rest EmptyString
      else run :: digitRuns rest EmptyString
  end.

(** [s.match(/\d+/g)]: the runs, or [null] when there is none. *)
Definition matchDigits (s : string) : option (list string) :=
  match digitRuns s EmptyString with
  | [] => None
  | runs => Some runs
  end.

Definition digitValue (c : ascii) : Z := Z.of_nat (nat_of_ascii c - 48).

Fixpoint numberFrom (acc : Z) (s : string) : Z :=
  match s with
  | EmptyString => acc
  | String c rest => numberFrom (10 * acc + digitValue c)%Z rest
  end.

(** [Number(s)] on a string of decimal digits. *)
Definition Number (s : string) : Z := numberFrom 0%Z s.

(** The parsing the cable layers repeat:
    [if (baseColor && baseColor.startsWith('rgb'))
       rgb = matches ? matches.map(Number) : fallback]. *)
Definition parseColorString (fallback : list Z) (baseColor : string) : list Z :=
  if negb (baseColor =? EmptyString) && String.prefix "rgb" baseColor then
    match matchDigits baseColor with
    | Some matches => map Number matches
    | None => fallback
    end
  else fallback.

(** [getColor] of the flow layer, before the intensity is applied. *)
Definition flowLayerRgb (status : string) : list Z :=
  parseColorString (getStatusColor status) (getStatusColorString status).

(** [getColor] of the glow layer, before the intensity is applied. *)
Definition glowLayerRgb (status : string) : list Z :=
  parseColorString [255; 255; 0]%Z (getStatusColorString status).

End Colors.

(** ** Cable geometry ([createArcPath]) *)

Module Arc.

Local Open Scope R_scope.

(** A GeoJSON position or an arc point: an array of two or of three numbers. *)
Inductive Point :=
| P2 (x y : R)
| P3 (x y z : R).

Definition px (p : Point) : R := match p with P2 x _ => x | P3 x _ _ => x end.
Definition py (p : Point) : R := match p with P2 _ y => y | P3 _ y _ => y end.
(** [p[2]], [None] standing for [undefined]. *)
Definition pz (p : Point) : option R :=
  match p with P2 _ _ => None | P3 _ _ z => Some z end.

(** The pairs [(a[i], a[i+1])] for [i < a.length - 1]. *)
Definition segmentsOf {A} (a : list A) : list (A * A) := combine a (tl a).

Definition atBase (p : Point) : Point := P3 (px p) (py p) 30.

Definition planarDistance (s e : Point) : R :=
  sqrt ((px e - px s) ^ 2 + (py e - py s) ^ 2).

Definition sagFactor (s e : Point) : R := Rmin (planarDistance s e * 0.05) 10.

Definition midPoint (s e : Point) : Point :=
  P3 ((px s + px e) / 2) ((py s + py e) / 2) (30 - sagFactor s e).

(** The push of [coordinates[coordinates.length - 1]] after the loop. *)
Definition lastPoint (coordinates : list Point) : list Point :=
  match nth_error coordinates (List.length coordinates - 1) with
  | Some l => [atBase l]
  | None => []
  end.

(** The loop and the final push. *)
Definition arcFrom (coordinates : list Point) : list Point :=
  flat_map (fun se => [atBase (fst se); midPoint (fst se) (snd se)])
           (segmentsOf coordinates)
  ++ lastPoint coordinates.

Definition createArcPath (coordinates : list Point) : list Point :=
  if (List.length coordinates <? 2)%nat then coordinates
  else arcFrom coordinates.

End Arc.

(** ** Cable geometry on doubles ([createArcPath] in binary64)

    The same function with the numbers of the engine: every coordinate is
    a binary64 double and every operation rounds to the nearest one. *)

Module Arc64.

Import PrimFloat.
Local Open Scope float_scope.

Inductive Point :=
| P2 (x y : float)
| P3 (x y z : float).

Definition px (p : Point) : float := match p with P2 x _ => x | P3 x _ _ => x end.
Definition py (p : Point) : float := match p with P2 _ y => y | P3 _ y _ => y end.
Definition pz (p : Point) : option float :=
  match p with P2 _ _ => None | P3 _ _ z => Some z end.

(** [Math.min(a, b)]: NaN if either argument is, and [-0] before [+0]. *)
Definition min (a b : float) : float :=
  if is_nan a || is_nan b then nan
  else if a <? b then a
  else if b <? a then b
  else if get_sign a then a else b.

(** [Math.pow(x, 2)], taken as the rounded product [x * x]. *)
Definition square (x : float) : float := x * x.

Definition atBase (p : Point) : Point := P3 (px p) (py p) 30.

Definition planarDistance (s e : Point) : float :=
  sqrt (square (px e - px s) + square (py e - py s)).

#[warnings="-inexact-float"]
Definition sagFactor (s e : Point) : float := min (planarDistance s e * 0.05) 10.

Definition midPoint (s e : Point) : Point :=
  P3 ((px s + px e) / 2) ((py s + py e) / 2) (30 - sagFactor s e).

Definition lastPoint (coordinates : list Point) : list Point :=
  match nth_error coordinates (List.length coordinates - 1) with
  | Some l => [atBase l]
  | None => []
  end.

Definition arcFrom (coordinates : list Point) : list Point :=
  flat_map (fun se => [atBase (fst se); midPoint (fst se) (snd se)])
           (Arc.segmentsOf coordinates)
  ++ lastPoint coordinates.

Definition createArcPath (coordinates : list Point) : list Point :=
  if (List.length coordinates <? 2)%nat then coordinates
  else arcFrom coordinates.

End Arc64.

(** ** GeoJSON cable features *)

Module Cable.

Record Feature := {
  status : string;                    (* properties.status *)
  coordinates : list Arc.Point        (* geometry.coordinates *)
}.

(** [features] is [None] when the collection has no such member. *)
Record FeatureCollection := { features : option (list Feature) }.

Record InfrastructureData := {
  hierarchical_power_cables : option FeatureCollection
}.

Definition indexed {A} (l : list A) : list (nat * A) :=
  combine (seq 0 (List.length l)) l.

End Cable.

(** ** Particles ([generateParticles], [getCurrentParticlePositions]) *)

Module Particles.

Import Arc Cable.
Local Open Scope R_scope.

Record Particle := {
  id : string;
  startPoint : Point;
  endPoint : Point;
  lineIndex : nat;
  segmentIndex : nat;
  particleIndex : nat;
  phase : R;
  color : list Z
}.

Definition particleCount : nat := 3.

Definition particleId (lineIndex i j : nat) : string :=
  (Js.toString (N.of_nat lineIndex) ++ "-" ++ Js.toString (N.of_nat i)
   ++ "-" ++ Js.toString (N.of_nat j))%string.

(** The inner loop over [j] for the segment [i] of a line. *)
Definition segmentParticles (lineIndex : nat) (statusColor : list Z)
    (seg : nat * (Point * Point)) : list Particle :=
  map (fun j =>
         {| id := particleId lineIndex (fst seg) j;
            startPoint := fst (snd seg);
            endPoint := snd (snd seg);
            lineIndex := lineIndex;
            segmentIndex := fst seg;
            particleIndex := j;
            phase := INR j / INR particleCount * 2 * PI;
            color := statusColor |})
      (seq 0 particleCount).

(** The body of [powerLines.features.forEach]. *)
Definition lineParticles (il : nat * Feature) : list Particle :=
  let line := snd il in
  if (status line =? "down")%string then []
  else
    let arcPath := createArcPath (coordinates line) in
    let statusColor := Colors.getStatusColor (status line) in
    flat_map (segmentParticles (fst il) statusColor)
             (indexed (segmentsOf arcPath)).

Definition generateParticles (powerLines : option FeatureCollection)
    : list Particle :=
  match powerLines with
  | None => []
  | Some fc =>
      match features fc with
      | None => []
      | Some fs => flat_map lineParticles (indexed fs)
      end
  end.

Record LayerVisibility := {
  prec : bool; rfcst : bool; tower : bool;
  flood : bool; power : bool; infrastructure : bool
}.

(** The cells of [Root] the animation reads and writes. *)
Record RootState := {
  infrastructureData : option InfrastructureData;
  layerVisibility : LayerVisibility;
  animationFrame : nat;
  powerParticles : list Particle
}.

Definition setPowerParticles (st : RootState) (ps : list Particle) : RootState :=
  {| infrastructureData := infrastructureData st;
     layerVisibility := layerVisibility st;
     animationFrame := animationFrame st;
     powerParticles := ps |}.

(** The effect "Update particles based on power data". *)
Definition updateParticlesEffect (st : RootState) : RootState :=
  match infrastructureData st with
  | Some data =>
      match hierarchical_power_cables data with
      | Some cables =>
          if power (layerVisibility st)
          then setPowerParticles st (generateParticles (Some cables))
          else setPowerParticles st []
      | None => setPowerParticles st []
      end
  | None => setPowerParticles st []
  end.

(** The interval callback of the animation loop. *)
Definition animate (prev : nat) : nat := ((prev + 1) mod 360)%nat.

Definition lerp (a b t : R) : R := a + (b - a) * t.

(** [None] in the third component stands for the [NaN] that a two-element
    array would give. *)
Definition interpolatePosition (s e : Point) (t : R) : R * R * option R :=
  (lerp (px s) (px e) t,
   lerp (py s) (py e) t,
   match pz s, pz e with
   | Some a, Some b => Some (lerp a b t)
   | _, _ => None
   end).

(** [Math.trunc] and the [%] of two numbers ([x - y * trunc(x / y)]). *)
Definition truncate (r : R) : Z :=
  if Rle_dec 0 r then Int_part r else (- Int_part (- r))%Z.

Definition fmod (x y : R) : R := x - y * IZR (truncate (x / y)).

(** An element of the array [getCurrentParticlePositions] returns: the
    particle's own members, then [position], [color] and [alpha]. *)
Module Positioned.
Record t := {
  particle : Particle;
  position : R * R * option R;
  color : list Z;
  alpha : R
}.
End Positioned.

Definition progress (frame : nat) (p : Particle) : R :=
  let timeScale := INR frame * 0.02 in
  fmod (timeScale + phase p) (2 * PI) / (2 * PI).

(** The callback of [powerParticles.map] for the frame [frame]. *)
Definition positionAtFrame (frame : nat) (p : Particle) : Positioned.t :=
  let t := progress frame p in
  {| Positioned.particle := p;
     Positioned.position := interpolatePosition (startPoint p) (endPoint p) t;
     Positioned.color := color p;       (* [particle.color || ...]: an array is truthy *)
     Positioned.alpha := sin (t * PI) * 0.8 + 0.2 |}.

Definition getCurrentParticlePositions (st : RootState) : list Positioned.t :=
  map (positionAtFrame (animationFrame st)) (powerParticles st).

End Particles.

(** ** Junction glow points ([getElectricalArcs]) *)

Module Junctions.

Import Arc Cable.
Local Open Scope R_scope.

(** [x.toFixed(f)] for [|x| < 1e21]: the sign, then the digits of the
    integer [n] nearest to [|x| * 10^f] (the larger one on a tie), padded
    with zeros to [f + 1] digits and split before the last [f]. *)
Definition nearest (x : R) (f : nat) : Z := Int_part (x * 10 ^ f + / 2).

Definition fixedDigits (n : Z) (f : nat) : string :=
  let m := Js.toString (Z.to_N n) in
  let m := Js.padStart (f + 1) "0"%char m in
  let k := String.length m in
  (substring 0 (k - f) m ++ "." ++ substring (k - f) f m)%string.

Definition toFixed (f : nat) (x : R) : string :=
  if Rlt_dec x 0 then ("-" ++ fixedDigits (nearest (- x) f) f)%string
  else fixedDigits (nearest x f) f.

Definition junctionKey (coord : Point) : string :=
  (toFixed 6 (px coord) ++ "," ++ toFixed 6 (py coord))%string.

Record Junction := {
  position : Point;
  count : nat;
  color : list Z;
  status : string
}.

(** The [Map] of junction points: entries in insertion order. *)
Definition JMap := list (string * Junction).

Fixpoint get (key : string) (m : JMap) : option Junction :=
  match m with
  | [] => None
  | (k, j) :: rest => if (key =? k)%string then Some j else get key rest
  end.

(** [set] replaces the value of a present key in place and appends a new
    key at the end. *)
Fixpoint set (key : string) (j : Junction) (m : JMap) : JMap :=
  match m with
  | [] => [(key, j)]
  | (k, j') :: rest =>
      if (key =? k)%string then (k, j) :: rest else (k, j') :: set key j rest
  end.

Definition withStatus (j : Junction) (st : string) (c : list Z) : Junction :=
  {| position := position j; count := count j; color := c; status := st |}.

Definition increment (j : Junction) : Junction :=
  {| position := position j; count := S (count j);
     color := color j; status := status j |}.

(** The body of [coordinates.forEach] for a line of status [st]. *)
Definition visitCoord (st : string) (statusColor : list Z)
    (m : JMap) (coord : Point) : JMap :=
  let key := junctionKey coord in
  let m1 :=
    match get key m with
    | None =>
        set key {| position := P3 (px coord) (py coord) 500;
                   count := 0; color := statusColor; status := st |} m
    | Some existingPoint =>
        if ((st =? "down") && negb (status existingPoint =? "down"))%string
        then set key (withStatus existingPoint "down" statusColor) m
        else if ((st =? "warning")
                 && (status existingPoint =? "operational"))%string
        then set key (withStatus existingPoint "warning" statusColor) m
        else m
    end in
  match get key m1 with
  | Some j => set key (increment j) m1
  | None => m1
  end.

(** The body of [features.forEach]. *)
Definition visitLine (m : JMap) (line : Feature) : JMap :=
  fold_left (visitCoord (Cable.status line)
                        (Colors.getStatusColor (Cable.status line)))
            (coordinates line) m.

Definition junctionPoints (fs : list Feature) : JMap :=
  fold_left visitLine fs [].

(** An element of [arcs]. *)
Module ElectricalArc.
Record t := {
  position : Point;
  intensity : R;
  color : list Z
}.
End ElectricalArc.

(** The body of [junctionPoints.forEach]. *)
Definition arcOf (entry : string * Junction) : list ElectricalArc.t :=
  let point := snd entry in
  if (1 <? count point)%nat && negb (status point =? "down")%string
  then [{| ElectricalArc.position := position point;
           ElectricalArc.intensity := Rmin (0.2 + INR (count point) * 0.1) 0.8;
           ElectricalArc.color := color point |}]
  else [].

Definition getElectricalArcs (infrastructureData : option InfrastructureData)
    : list ElectricalArc.t :=
  match infrastructureData with
  | None => []
  | Some data =>
      match hierarchical_power_cables data with
      | None => []
      | Some cables =>
          match features cables with
          | None => []
          | Some fs => flat_map arcOf (junctionPoints fs)
          end
      end
  end.

End Junctions.

(** ** The junction rule as the specification words it

    The groups of coordinates sharing a key, counted and aggregated
    declaratively; the theorems below compare [Junctions] with these. *)

Module JunctionSpec.

Import Arc Cable.
Local Open Scope string_scope.

(** One coordinate of one cable, with the status of that cable. *)
Definition Visit : Type := string * Point.

(** Every coordinate of every cable, in processing order. *)
Definition visits (fs : list Feature) : list Visit :=
  flat_map (fun line => map (pair (Cable.status line)) (coordinates line)) fs.

Definition keyOf (v : Visit) : string := Junctions.junctionKey (snd v).

(** The coordinates that share the key [k]. *)
Definition group (k : string) (fs : list Feature) : list Visit :=
  filter (fun v => keyOf v =? k) (visits fs).

Definition statuses (k : string) (fs : list Feature) : list string :=
  map fst (group k fs).

Definition isCableStatus (s : string) : Prop :=
  s = "operational" \/ s = "warning" \/ s = "down".

(** "Any down endpoint forces down; otherwise any warning endpoint forces
    warning; otherwise operational." *)
Definition worst (sts : list string) : string :=
  if existsb (String.eqb "down") sts then "down"
  else if existsb (String.eqb "warning") sts then "warning"
  else "operational".

(** The distinct keys, each at its first occurrence. *)
Definition remember (seen : list string) (k : string) : list string :=
  if existsb (String.eqb k) seen then seen else seen ++ [k].

Definition distinct (ks : list string) : list string :=
  fold_left remember ks [].

Definition keys (fs : list Feature) : list string :=
  distinct (map keyOf (visits fs)).

(** The status the map holds for a key. *)
Definition statusAt (k : string) (fs : list Feature) : option string :=
  option_map Junctions.status (Junctions.get k (Junctions.junctionPoints fs)).

Definition connectionCount (k : string) (fs : list Feature) : nat :=
  List.length (group k fs).

End JunctionSpec.

(** ** The junction map, one key at a time

    What [visitCoord] does to the entry of the key it touches, used to
    follow a single key through the two nested loops. *)

Module JunctionTrace.

Import Arc Cable Junctions JunctionSpec.
Local Open Scope string_scope.

Definition visit (m : JMap) (v : Visit) : JMap :=
  visitCoord (fst v) (Colors.getStatusColor (fst v)) m (snd v).

(** The two-branch update of the status of an existing entry. *)
Definition escalate (existing st : string) : string :=
  if (st =? "down") && negb (existing =? "down") then "down"
  else if (st =? "warning") && (existing =? "operational") then "warning"
  else existing.

(** The status after the cables of a group have been folded in, in order. *)
Definition aggregate (sts : list string) : string :=
  match sts with
  | [] => "operational"
  | first :: rest => fold_left escalate rest first
  end.

Definition fresh (v : Visit) : Junction :=
  {| position := P3 (px (snd v)) (py (snd v)) 500;
     count := 0;
     color := Colors.getStatusColor (fst v);
     status := fst v |}.

Definition touch (existing : Junction) (v : Visit) : Junction :=
  if (fst v =? "down") && negb (Junctions.status existing =? "down")
  then withStatus existing "down" (Colors.getStatusColor (fst v))
  else if (fst v =? "warning") && (Junctions.status existing =? "operational")
  then withStatus existing "warning" (Colors.getStatusColor (fst v))
  else existing.

Definition evolve (entry : option Junction) (v : Visit) : option Junction :=
  Some (increment (match entry with
                   | None => fresh v
                   | Some existing => touch existing v
                   end)).

(** The entry the map ends with for a group, in closed form. *)
Definition junctionOf (g : list Visit) : option Junction :=
  match g with
  | [] => None
  | first :: _ =>
      Some {| position := P3 (px (snd first)) (py (snd first)) 500;
              count := List.length g;
              color := Colors.getStatusColor (aggregate (map fst g));
              status := aggregate (map fst g) |}
  end.

(** The glow point of the group of key [k], if it qualifies: more than one
    connection and an aggregate status other than down. *)
Definition glowOf (fs : list Feature) (k : string) : list ElectricalArc.t :=
  match group k fs with
  | [] => []
  | first :: _ =>
      if (1 <? connectionCount k fs)%nat
         && negb (aggregate (statuses k fs) =? "down")
      then [{| ElectricalArc.position := P3 (px (snd first)) (py (snd first)) 500;
               ElectricalArc.intensity :=
                 Rmin (0.2 + 0.1 * INR (connectionCount k fs)) 0.8;
               ElectricalArc.color :=
                 Colors.getStatusColor (aggregate (statuses k fs)) |}]
      else []
  end.

Definition computeJunctions (fs : list Feature) : list ElectricalArc.t :=
  flat_map (glowOf fs) (keys fs).

End JunctionTrace.

(** ** "Cable endpoints" and "rounded to six decimal digits"

    What these words of the specification denote, to be set against the
    coordinates [getElectricalArcs] walks and the keys it builds. *)

Module JunctionWording.

Import Arc Cable Junctions JunctionSpec JunctionTrace.
Local Open Scope string_scope.

(** The two ends of a cable: the first and the last coordinate of its
    path. *)
Definition endpoints (line : Feature) : list Point :=
  match coordinates line with
  | [] => []
  | [only] => [only]
  | first :: rest => [first; last rest first]
  end.

Definition endpointVisits (fs : list Feature) : list Visit :=
  flat_map (fun line => map (pair (Cable.status line)) (endpoints line)) fs.

Definition endpointGroup (k : string) (fs : list Feature) : list Visit :=
  filter (fun v => keyOf v =? k) (endpointVisits fs).

(** The glow points the wording asks for: one for each group of endpoints
    with more than one member and an aggregate status other than down. *)
Definition endpointGlow (fs : list Feature) (k : string)
    : list ElectricalArc.t :=
  match endpointGroup k fs with
  | [] => []
  | first :: _ =>
      if (1 <? List.length (endpointGroup k fs))%nat
         && negb (aggregate (map fst (endpointGroup k fs)) =? "down")
      then [{| ElectricalArc.position := P3 (px (snd first)) (py (snd first)) 500;
               ElectricalArc.intensity :=
                 Rmin (0.2 + 0.1 * INR (List.length (endpointGroup k fs))) 0.8;
               ElectricalArc.color :=
                 Colors.getStatusColor
                   (aggregate (map fst (endpointGroup k fs))) |}]
      else []
  end.

Definition glowAtEndpoints (fs : list Feature) : list ElectricalArc.t :=
  flat_map (endpointGlow fs) (distinct (map keyOf (endpointVisits fs))).

(** How many coordinates of a cable have the key [k]. *)
Definition passes (k : string) (line : Feature) : nat :=
  List.length
    (filter (fun coord => junctionKey coord =? k) (coordinates line)).

(** A number rounded to six decimal digits: its sign and the number of
    millionths nearest to its magnitude, the larger one on a tie. *)
Definition millionths (x : R) : bool * Z :=
  (if Rlt_dec x 0 then true else false,
   Int_part (Rabs x * 1000000 + / 2)%R).

(** Reading a key back.  The text before and after the first comma: *)
Fixpoint beforeComma (s : string) : string :=
  match s with
  | EmptyString => EmptyString
  | String c rest =>
      if Ascii.eqb c "," then EmptyString else String c (beforeComma rest)
  end.

Fixpoint afterComma (s : string) : string :=
  match s with
  | EmptyString => EmptyString
  | String c rest => if Ascii.eqb c "," then rest else afterComma rest
  end.

Fixpoint commaFree (s : string) : bool :=
  match s with
  | EmptyString => true
  | String c rest => negb (Ascii.eqb c ",") && commaFree rest
  end.

(** a text without its decimal points, *)
Fixpoint undot (s : string) : string :=
  match s with
  | EmptyString => EmptyString
  | String c rest =>
      if Ascii.eqb c "." then undot rest else String c (undot rest)
  end.

(** and the number its digits spell. *)
Definition magnitude (s : string) : option N :=
  option_map N.of_uint (NilEmpty.uint_of_string (undot s)).

Fixpoint digitsOnly (s : string) : bool :=
  match s with
  | EmptyString => true
  | String c rest => Colors.isDigit c && digitsOnly rest
  end.

End JunctionWording.

(** ** The controller under a sequence of events *)

Module TimelineRun.

Import Timeline.
Local Open Scope Z_scope.

(** What happens to a mounted controller: the play button is pressed, the
    interval fires, a dot is clicked, the parent passes another
    [availableTimesteps] array. *)
Inductive Event :=
| Play
| Fire
| Click (index : Z)
| Replace (available : list Timestep).

(** A mounted controller: the props of its last render and its cells. *)
Record Mounted := { props : Props; cells : State }.

Definition withTimesteps (p : Props) (available : list Timestep) : Props :=
  {| onTimestepChange := onTimestepChange p;
     isVisible := isVisible p;
     availableTimesteps := available |}.


(** The handlers close over the props of the last render.  A new
    [availableTimesteps] array re-runs the effect of lines 66-70 and nothing
    else: a live interval stays as it is, with the length its callback
    closed over when it was started. *)
Definition step (m : Mounted) (e : Event) : Mounted :=
  match e with
  | Play => {| props := props m; cells := handlePlay (props m) (cells m) |}
  | Fire => {| props := props m; cells := tick (cells m) |}
  | Click index =>
      {| props := props m; cells := handleTimestepClick (cells m) index |}
  | Replace available =>
      let p := withTimesteps (props m) available in
      {| props := p; cells := resetEffect p (cells m) |}
  end.

Definition run (es : list Event) (m : Mounted) : Mounted :=
  fold_left step es m.





End TimelineRun.

(** ** Layer accessors of [Root] (visibility, colours, widths, sizes) *)

Module Visuals.

Import Arc Cable Particles.
Local Open Scope R_scope.

(** [setLayerVisibility(prev => ({...prev, [layerName]: isVisible}))], on
    the six layers the state starts with; any other name adds a member
    that nothing reads. *)
Definition handleVisibilityChange (layerName : string) (isVisible : bool)
    (prev : LayerVisibility) : LayerVisibility :=
  {| prec := if (layerName =? "prec")%string then isVisible else prec prev;
     rfcst := if (layerName =? "rfcst")%string then isVisible else rfcst prev;
     tower := if (layerName =? "tower")%string then isVisible else tower prev;
     flood := if (layerName =? "flood")%string then isVisible else flood prev;
     power := if (layerName =? "power")%string then isVisible else power prev;
     infrastructure :=
       if (layerName =? "infrastructure")%string then isVisible
       else infrastructure prev |}.

Definition setLayerVisibility (st : RootState) (lv : LayerVisibility)
    : RootState :=
  {| infrastructureData := infrastructureData st;
     layerVisibility := lv;
     animationFrame := animationFrame st;
     powerParticles := powerParticles st |}.

(** [Math.floor]. *)
Definition floor (x : R) : Z := Int_part x.

(** [Math.floor(rgb[i] * f)]; [None] stands for the [NaN] a missing
    channel gives. *)
Definition scaled (rgb : list Z) (i : nat) (f : R) : option Z :=
  option_map (fun c => floor (IZR c * f)) (nth_error rgb i).

(** [getFillColor] of the particle layer ([d.color || [0, 255, 0]]: an
    array is truthy). *)
Definition getFillColor (d : Positioned.t) : list (option Z) :=
  let intensity := Positioned.alpha d * 255 in
  let rgb := Positioned.color d in
  [scaled rgb 0 (Positioned.alpha d);
   scaled rgb 1 (Positioned.alpha d);
   scaled rgb 2 (Positioned.alpha d);
   Some (floor intensity)].

(** [getRadius] of the particle layer. *)
Definition getRadius (frame : nat) (d : Positioned.t) : R :=
  let pulse :=
    sin (INR frame * 0.1 + INR (particleIndex (Positioned.particle d))) * 0.3
    + 0.7 in
  5 * pulse.

(** The members of [properties] the cable layers read. *)
Record Properties := {
  status : string;
  cable_type : string;
  from_level : option R
}.

(** [features.filter(d => d.properties.status !== 'down')], the data of the
    glow and flow layers. *)
Definition liveCables (fs : list Properties) : list Properties :=
  filter (fun d => negb (status d =? "down")%string) fs.

(** [getColor] of the layer [hierarchical-cable-glow]. *)
Definition glowColor (frame : nat) (d : Properties) : list (option Z) :=
  let rgb := Colors.glowLayerRgb (status d) in
  let timeScale := INR frame * 0.05 in
  let glowIntensity := sin (timeScale * 0.5) * 0.3 + 0.4 in
  [scaled rgb 0 0.8; scaled rgb 1 0.8; scaled rgb 2 0.2;
   Some (floor (60 * glowIntensity))].

(** [d.properties.from_level || 0]. *)
Definition levelOf (d : Properties) : R :=
  match from_level d with
  | Some l => l
  | None => 0
  end.

(** [getColor] of the layer [hierarchical-cable-flow]. *)
Definition flowColor (frame : nat) (d : Properties) : list (option Z) :=
  let rgb := Colors.flowLayerRgb (status d) in
  let timeScale := INR frame * 0.05 in
  let intensity := sin timeScale * 0.4 + 0.6 in
  let flowIntensity := sin (timeScale * 1.5 + levelOf d * 0.5) * 0.3 + 0.7 in
  [scaled rgb 0 flowIntensity; scaled rgb 1 flowIntensity;
   scaled rgb 2 flowIntensity; Some (floor (255 * intensity))].

(** [getColor] of the layer [hierarchical-cable-background]. *)
Definition backgroundColor (d : Properties) : list Z :=
  if (status d =? "down")%string then [100; 0; 0; 100]%Z
  else
    let color := Colors.getStatusColorString (status d) in
    if negb (color =? EmptyString)%string && String.prefix "rgb" color then
      match Colors.matchDigits color with
      | Some matches => map Colors.Number matches ++ [100%Z]
      | None => [255; 0; 0; 100]%Z
      end
    else [255; 0; 0; 100]%Z.

(** [getWidth] of the three cable layers. *)
Definition glowWidth (frame : nat) (d : Properties) : R :=
  let baseWidth :=
    if (cable_type d =? "transmission")%string then 25
    else if (cable_type d =? "distribution")%string then 20
    else if (cable_type d =? "service")%string then 15
    else 20 in
  let timeScale := INR frame * 0.05 in
  let pulse := sin (timeScale * 0.3) * 0.4 + 0.6 in
  baseWidth * pulse.

Definition flowWidth (frame : nat) (d : Properties) : R :=
  let baseWidth :=
    if (cable_type d =? "transmission")%string then 10
    else if (cable_type d =? "distribution")%string then 8
    else if (cable_type d =? "service")%string then 6
    else 6 in
  let timeScale := INR frame * 0.05 in
  let pulse := sin (timeScale * 0.8) * 0.25 + 0.75 in
  baseWidth * pulse.

Definition backgroundWidth (d : Properties) : R :=
  if (cable_type d =? "transmission")%string then 6
  else if (cable_type d =? "distribution")%string then 4
  else if (cable_type d =? "service")%string then 3
  else 4.

End Visuals.

(** ** Measures over the junction map and the arc path *)

Module Measures.

Import Arc Junctions.

(** The sum of the [count] members of the entries. *)
Definition totalCount (m : JMap) : nat :=
  list_sum (map (fun entry => count (snd entry)) m).

(** The elements at the even positions: of an arc path, the points that
    stand for the waypoints. *)
Fixpoint everyOther {A} (l : list A) : list A :=
  match l with
  | [] => []
  | a :: rest =>
      a :: match rest with
           | [] => []
           | _ :: rest' => everyOther rest'
           end
  end.

Definition planar (q : Point) : R * R := (px q, py q).

(** Whether a text starts with the minus sign. *)
Definition startsWithMinus (s : string) : bool :=
  match s with
  | String c _ => Ascii.eqb c "-"
  | EmptyString => false
  end.

End Measures.

(** ** Loading the flood timestamps and the infrastructure data *)

Module FloodData.

Import Timeline Cable.
Local Open Scope string_scope.

Definition PREFIX : string := "waterdepth_".
Definition HIERARCHICAL_INFRASTRUCTURE : string :=
  "data/hierarchical_infrastructure.json".
Definition TIME_SERIES_INFRASTRUCTURE_BASE : string :=
  "data/time_series_infrastructure/infrastructure_".
Definition FLOOD_TILES_BASE : string := "data/flood_tiles".

(** [s] without the literal [pre] it starts with, if it does. *)
Fixpoint literal (pre s : string) : option string :=
  match pre, s with
  | EmptyString, _ => Some s
  | String a pre', String b s' =>
      if Ascii.eqb a b then literal pre' s' else None
  | String _ _, EmptyString => None
  end.

(** [\d{n}]: the [n] digits [s] starts with and what follows them. *)
Fixpoint digits (n : nat) (s : string) : option (string * string) :=
  match n with
  | O => Some (EmptyString, s)
  | S k =>
      match s with
      | String c rest =>
          if Colors.isDigit c then
            match digits k rest with
            | Some (ds, after) => Some (String c ds, after)
            | None => None
            end
          else None
      | EmptyString => None
      end
  end.

(** [s] is exactly [n] digits. *)
Fixpoint digitString (n : nat) (s : string) : bool :=
  match n, s with
  | O, EmptyString => true
  | S k, String c rest => Colors.isDigit c && digitString k rest
  | _, _ => false
  end.

(** The groups of [/waterdepth_(\d{4})(\d{2})(\d{2})_(\d{2})(\d{2})(\d{2})/]. *)
Record Groups := {
  year : string; month : string; day : string;
  hour : string; minute : string; second : string
}.

(** The pattern tried at the start of [s]. *)
Definition matchHere (s : string) : option Groups :=
  match literal PREFIX s with
  | None => None
  | Some s0 =>
  match digits 4 s0 with
  | None => None
  | Some (y, s1) =>
  match digits 2 s1 with
  | None => None
  | Some (mo, s2) =>
  match digits 2 s2 with
  | None => None
  | Some (d, s3) =>
  match literal "_" s3 with
  | None => None
  | Some s4 =>
  match digits 2 s4 with
  | None => None
  | Some (h, s5) =>
  match digits 2 s5 with
  | None => None
  | Some (mi, s6) =>
  match digits 2 s6 with
  | None => None
  | Some (se, _) =>
      Some {| year := y; month := mo; day := d;
              hour := h; minute := mi; second := se |}
  end end end end end end end end.

(** [folder.match(...)]: the leftmost position at which the pattern
    matches. *)
Fixpoint folderMatch (s : string) : option Groups :=
  match matchHere s with
  | Some g => Some g
  | None =>
      match s with
      | String _ rest => folderMatch rest
      | EmptyString => None
      end
  end.

(** The callback of [folders.map]. *)
Definition parseFolder (folder : string) : option Timestep :=
  match folderMatch folder with
  | Some g =>
      Some {| time := folder;
              display := year g ++ "-" ++ month g ++ "-" ++ day g ++ " "
                         ++ hour g ++ ":" ++ minute g |}
  | None => None
  end.


(** [timesteps.sort((a, b) => a.time.localeCompare(b.time))]: a stable
    sort; [localeCompare] is the host's collation, taken as a parameter
    (negative when its first argument sorts first). *)
Fixpoint insertByTime (localeCompare : string -> string -> Z)
    (t : Timestep) (sorted : list Timestep) : list Timestep :=
  match sorted with
  | [] => [t]
  | u :: rest =>
      if (localeCompare (time t) (time u) <? 0)%Z then t :: u :: rest
      else u :: insertByTime localeCompare t rest
  end.

Definition sortByTime (localeCompare : string -> string -> Z)
    (ts : list Timestep) : list Timestep :=
  fold_left (fun sorted t => insertByTime localeCompare t sorted) ts [].

(** [u] does not sort before [t]. *)
Definition notBefore (localeCompare : string -> string -> Z)
    (t u : Timestep) : Prop :=
  ~ (localeCompare (time u) (time t) < 0)%Z.




(** [timeStr.substring('waterdepth_'.length)] after [startsWith]. *)
Definition infrastructureTimeStr (timeStr : string) : string :=
  if String.prefix PREFIX timeStr
  then substring (String.length PREFIX)
                 (String.length timeStr - String.length PREFIX) timeStr
  else timeStr.

(** The file [loadHierarchicalInfrastructureData] asks for first. *)
Definition infrastructureUrl (currentTimestep : option Timestep) : string :=
  match currentTimestep with
  | None => HIERARCHICAL_INFRASTRUCTURE
  | Some t =>
      TIME_SERIES_INFRASTRUCTURE_BASE ++ infrastructureTimeStr (time t)
      ++ ".json"
  end.

(** The [data] template of the flood tile layer. *)
Definition floodTilesUrl (t : Timestep) : string :=
  FLOOD_TILES_BASE ++ "/" ++ time t ++ "/{z}/{x}/{y}.png".







End FloodData.

(** ** Data used in the examples *)

Module Examples.

Import Timeline Arc Cable Particles.

Definition fiveSteps : Props :=
  {| onTimestepChange := true; isVisible := true;
     availableTimesteps :=
       map (fun n => defaultEntry n 0) [0; 1; 2; 3; 4]%nat |}.

Definition threeSteps : Props :=
  {| onTimestepChange := true; isVisible := true;
     availableTimesteps := map (fun n => defaultEntry n 0) [0; 1; 2]%nat |}.

Definition idleAt (i : Z) : State :=
  {| isPlaying := false; currentTimestep := i; playInterval := None |}.

Definition playingAt (m i : Z) : State :=
  {| isPlaying := true; currentTimestep := i;
     playInterval := Some {| delay := 1000; modulus := m |} |}.

Definition liveCable : Feature :=
  {| Cable.status := "operational"; coordinates := [P2 0 0; P2 3 4] |}.

Definition downCable : Feature :=
  {| Cable.status := "down"; coordinates := [P2 3 4; P2 6 8] |}.

Definition exampleData : InfrastructureData :=
  {| hierarchical_power_cables :=
       Some {| features := Some [liveCable; downCable] |} |}.

(** The first particle [generateParticles] emits for [liveCable]. *)
Definition firstParticle : Particle :=
  {| id := "0-0-0";
     startPoint := P3 0 0 30;
     endPoint := midPoint (P2 0 0) (P2 3 4);
     lineIndex := 0;
     segmentIndex := 0;
     particleIndex := 0;
     phase := INR 0 / INR particleCount * 2 * PI;
     color := [0; 255; 0]%Z |}.

(** Four cables meeting at one substation. *)
Definition hub : Point := P2 147.3521 (-35.1276).

Definition cableTo (st : string) (far : Point) : Feature :=
  {| Cable.status := st; coordinates := [hub; far] |}.

Definition feederA : Feature := cableTo "operational" (P2 147.36 (-35.13)).
Definition feederB : Feature := cableTo "warning" (P2 147.34 (-35.12)).
Definition feederC : Feature :=
  {| Cable.status := "operational";
     coordinates := [P2 147.35 (-35.14); P2 147.3521004 (-35.1276002)] |}.
Definition feederD : Feature := cableTo "down" (P2 147.37 (-35.11)).

Definition hubKey : string := "147.352100,-35.127600".

Definition visibility (powerOn : bool) : LayerVisibility :=
  {| prec := false; rfcst := false; tower := false;
     flood := true; power := powerOn; infrastructure := true |}.

End Examples.

Import Examples.

(** ** Data used in the further examples *)

Module MoreExamples.

Import Timeline TimelineRun Arc Cable Particles.

(** No timestep list supplied: the 48 defaults are played. *)
Definition noSteps : Props :=
  {| onTimestepChange := true; isVisible := true; availableTimesteps := [] |}.

(** The hard-coded single entry used when the folder list cannot be read. *)
Definition oneStep : Props :=
  {| onTimestepChange := true; isVisible := true;
     availableTimesteps :=
       [{| time := "waterdepth_20221024_000000";
           display := "2022-10-24 00:00" |}] |}.

Definition firstNight : string := "waterdepth_20221024_000000".

(** A collation for the examples: shorter names first. *)
Definition byLength (a b : string) : Z :=
  (Z.of_nat (String.length a) - Z.of_nat (String.length b))%Z.

(** Two live cables that cross at the waypoint in the middle of each. *)
Definition crossingA : Feature :=
  {| Cable.status := "operational";
     coordinates := [P2 0 0; P2 1 1; P2 2 2] |}.

Definition crossingB : Feature :=
  {| Cable.status := "operational";
     coordinates := [P2 0 2; P2 1 1; P2 2 0] |}.


End MoreExamples.

Import MoreExamples.

(** * Properties *)

(** ** The timeline controller *)

Section TimelineFacts.

Import Timeline.
Local Open Scope Z_scope.

Lemma default_timesteps_length : List.length generateDefaultTimesteps = 48%nat.
Proof. reflexivity. Qed.

(** The sequence the controller plays is never empty: an empty
    [availableTimesteps] is replaced by the 48 half-hourly defaults. *)
Lemma timesteps_nonempty (p : Props) : 0 < len p.
Proof.
  unfold len, timesteps.
  destruct (0 <? List.length (availableTimesteps p))%nat eqn:E.
  - apply Nat.ltb_lt in E. lia.
  - rewrite default_timesteps_length. lia.
Qed.

Lemma index_in_range {A} (a : list A) (i : Z) :
  0 <= i < Z.of_nat (List.length a) ->
  exists x, nth_error a (Z.to_nat i) = Some x /\ Js.index a i = Some x.
Proof.
  intros [Hlo Hhi]. unfold Js.index.
  destruct (i <? 0) eqn:E; [apply Z.ltb_lt in E; lia|].
  destruct (nth_error a (Z.to_nat i)) as [x|] eqn:Hn.
  - exists x. split; reflexivity.
  - apply nth_error_None in Hn. lia.
Qed.

Lemma index_out_of_range {A} (a : list A) (i : Z) :
  ~ (0 <= i < Z.of_nat (List.length a)) -> Js.index a i = None.
Proof.
  intros H. unfold Js.index.
  destruct (i <? 0) eqn:E; [reflexivity|].
  apply Z.ltb_ge in E. apply nth_error_None. lia.
Qed.

Lemma rem_step (i m : Z) : 0 <= i -> 0 < m -> Js.rem (i + 1) m = (i + 1) mod m.
Proof. intros Hi Hm. unfold Js.rem. apply Z.rem_mod_nonneg; lia. Qed.

(** While the interval created by [handlePlay] is live, [n] firings take
    the index [i] to [(i + n) mod m]. *)
Lemma ticks_live (m : Z) (n : nat) (st : State) :
  0 < m ->
  playInterval st = Some {| delay := 1000; modulus := m |} ->
  0 <= currentTimestep st < m ->
  playInterval (ticks n st) = playInterval st
  /\ isPlaying (ticks n st) = isPlaying st
  /\ currentTimestep (ticks n st) = (currentTimestep st + Z.of_nat n) mod m.
Proof.
  intros Hm Hiv Hrange. induction n as [|n IH].
  - cbn. repeat split. rewrite Z.add_0_r, Z.mod_small; lia.
  - destruct IH as (IHiv & IHplay & IHidx).
    change (ticks (S n) st) with (tick (ticks n st)).
    unfold tick. rewrite IHiv, Hiv.
    cbn [setIndex playInterval isPlaying currentTimestep modulus].
    split; [rewrite IHiv; exact Hiv|]. split; [exact IHplay|].
    rewrite rem_step, IHidx.
    + rewrite Zplus_mod_idemp_l. f_equal. lia.
    + rewrite IHidx. apply Z.mod_pos_bound. lia.
    + lia.
Qed.

(** C1.  Started from rest at a valid index [i], playback is active; every
    firing of the one-second interval moves the index from [j] to
    [(j + 1) mod L]; and after [n] firings the index is [(i + n) mod L],
    where [L] is the length of the (never empty) timestep sequence. *)
Theorem playback_advances_mod_length (p : Props) (st : State) (n : nat) :
  isPlaying st = false ->
  0 <= currentTimestep st < len p ->
  let playing := handlePlay p st in
  isPlaying (ticks n playing) = true
  /\ currentTimestep (ticks (S n) playing)
     = (currentTimestep (ticks n playing) + 1) mod len p
  /\ currentTimestep (ticks n playing)
     = (currentTimestep st + Z.of_nat n) mod len p.
Proof.
  intros Hidle Hrange playing.
  assert (Hm : 0 < len p) by apply timesteps_nonempty.
  assert (Hiv : playInterval playing = Some {| delay := 1000; modulus := len p |}).
  { unfold playing, handlePlay. rewrite Hidle. reflexivity. }
  assert (Hcur : currentTimestep playing = currentTimestep st).
  { unfold playing, handlePlay. rewrite Hidle. reflexivity. }
  assert (Hplay : isPlaying playing = true).
  { unfold playing, handlePlay. rewrite Hidle. reflexivity. }
  assert (Hr : 0 <= currentTimestep playing < len p) by (rewrite Hcur; exact Hrange).
  destruct (ticks_live n playing Hm Hiv Hr) as (_ & Hp & Hi).
  destruct (ticks_live (S n) playing Hm Hiv Hr) as (_ & _ & Hs).
  repeat split.
  - rewrite Hp. exact Hplay.
  - rewrite Hs, Hi, Zplus_mod_idemp_l. f_equal. lia.
  - rewrite Hi, Hcur. reflexivity.
Qed.

(** Length 5, start 3, advance 4: index 2. *)
Lemma playback_wraps_5_3_4 :
  currentTimestep (ticks 4 (handlePlay fiveSteps (idleAt 3))) = 2.
Proof.
  refine (proj2 (proj2 (playback_advances_mod_length fiveSteps (idleAt 3) 4
                          eq_refl _))).
  change (0 <= 3 < 5). lia.
Defined.

(** The play button is a toggle: a second press stops the interval and
    leaves the index where the playback took it; nothing fires afterwards. *)
Lemma play_twice_is_idle (p : Props) (st : State) :
  isPlaying st = false ->
  let stopped := handlePlay p (handlePlay p st) in
  isPlaying stopped = false
  /\ playInterval stopped = None
  /\ currentTimestep stopped = currentTimestep st
  /\ tick stopped = stopped.
Proof.
  intros Hidle. unfold handlePlay. rewrite Hidle. cbn. repeat split.
Qed.

(** A new, non-empty sequence puts the index back to 0. *)
Lemma reset_on_new_timesteps (p : Props) (st : State) :
  availableTimesteps p <> [] ->
  currentTimestep (resetEffect p st) = 0
  /\ isPlaying (resetEffect p st) = isPlaying st
  /\ playInterval (resetEffect p st) = playInterval st.
Proof.
  intros Hne. unfold resetEffect.
  destruct (availableTimesteps p); [congruence|]. cbn. repeat split.
Qed.

(** The scenario of the specification: three timesteps, idle at 0, play,
    one tick, pause, select 2. *)
Lemma scenario_play_tick_pause_select :
  let s0 := resetEffect threeSteps initial in
  let s1 := handlePlay threeSteps s0 in
  let s2 := tick s1 in
  let s3 := handlePlay threeSteps s2 in
  let s4 := handleTimestepClick s3 2 in
  currentTimestep s0 = 0
  /\ isPlaying s1 = true
  /\ currentTimestep s2 = 1
  /\ emitted threeSteps s1 s2 = [defaultEntry 1 0]
  /\ isPlaying s3 = false
  /\ playInterval s3 = None
  /\ currentTimestep s4 = 2
  /\ emitted threeSteps s3 s4 = [defaultEntry 2 0].
Proof. repeat split. Qed.

Lemma click_state (st : State) (i : Z) :
  currentTimestep (handleTimestepClick st i) = i
  /\ isPlaying (handleTimestepClick st i) = false
  /\ (isPlaying st = true -> playInterval (handleTimestepClick st i) = None)
  /\ (isPlaying st = false ->
      playInterval (handleTimestepClick st i) = playInterval st).
Proof.
  unfold handleTimestepClick.
  destruct (isPlaying st) eqn:E; cbn; rewrite ?E; repeat split;
    try reflexivity; try discriminate.
  destruct (playInterval st); reflexivity.
Qed.

Lemma emitted_cases (p : Props) (before after : State) :
  emitted p before after = notifyEffect p after \/ emitted p before after = [].
Proof.
  unfold emitted.
  destruct (negb (state_eqb before after) && notifyDepsChanged p before after);
    [left | right]; reflexivity.
Qed.

Lemma emitted_on_index_change (p : Props) (before after : State) :
  currentTimestep before <> currentTimestep after ->
  emitted p before after = notifyEffect p after.
Proof.
  intros Hne. apply Z.eqb_neq in Hne.
  unfold emitted, state_eqb, notifyDepsChanged. rewrite Hne.
  rewrite andb_false_r. reflexivity.
Qed.

Lemma emitted_same_index (p : Props) (before after : State) :
  currentTimestep before = currentTimestep after ->
  availableTimesteps p <> [] ->
  emitted p before after = [].
Proof.
  intros He Hne. unfold emitted, notifyDepsChanged.
  rewrite He, Z.eqb_refl.
  destruct (availableTimesteps p) as [|t l]; [congruence|].
  cbn. rewrite andb_false_r. reflexivity.
Qed.

(** C8 as stated fails at one point: clicking the dot of the index that is
    already current leaves [currentTimestep] unchanged, so the notification
    effect does not run and the listener receives nothing, although the
    index is valid and a listener is registered. *)
Lemma reselect_current_emits_nothing :
  onTimestepChange threeSteps = true
  /\ 0 <= 1 < len threeSteps
  /\ currentEntry threeSteps (handleTimestepClick (playingAt 3 1) 1)
     = Some (defaultEntry 1 0)
  /\ isPlaying (handleTimestepClick (playingAt 3 1) 1) = false
  /\ emitted threeSteps (playingAt 3 1) (handleTimestepClick (playingAt 3 1) 1)
     = [].
Proof. repeat split; vm_compute; congruence. Qed.

(** C8 (amended).  For a valid index [i], [handleTimestepClick i] makes [i]
    the current index, so that the current entry is the [i]-th timestep;
    playback is off afterwards and the interval of an active playback is
    cleared; the listener receives exactly that timestep whenever [i]
    differs from the previous index, and receives nothing when [i] was
    already current (for a supplied, non-empty sequence). *)
Theorem select_valid_index (p : Props) (st : State) (i : Z) :
  onTimestepChange p = true ->
  0 <= i < len p ->
  let st' := handleTimestepClick st i in
  exists t,
    nth_error (timesteps p) (Z.to_nat i) = Some t
    /\ currentTimestep st' = i
    /\ currentEntry p st' = Some t
    /\ isPlaying st' = false
    /\ (isPlaying st = true -> playInterval st' = None)
    /\ (currentTimestep st <> i -> emitted p st st' = [t])
    /\ (currentTimestep st = i -> availableTimesteps p <> [] ->
        emitted p st st' = []).
Proof.
  intros Hl Hrange st'.
  destruct (click_state st i) as (Hi & Hp & Hc & _).
  destruct (index_in_range (timesteps p) Hrange) as (t & Hn & Hx).
  assert (He : currentEntry p st' = Some t).
  { unfold currentEntry, st'. rewrite Hi. exact Hx. }
  exists t. repeat split; try assumption.
  - intros Hne. unfold st'. rewrite emitted_on_index_change.
    + unfold notifyEffect. rewrite Hl. fold st'. rewrite He. reflexivity.
    + rewrite Hi. exact Hne.
  - intros Heq Hav. apply emitted_same_index; [|exact Hav].
    unfold st'. rewrite Hi. exact Heq.
Qed.

(** The end of the scenario of the specification: sequence of length 3,
    paused at index 1, select index 2: index 2, and the third entry is
    emitted. *)
Lemma select_2_of_3 :
  exists t,
    nth_error (timesteps threeSteps) 2 = Some t
    /\ currentTimestep (handleTimestepClick (idleAt 1) 2) = 2
    /\ emitted threeSteps (idleAt 1) (handleTimestepClick (idleAt 1) 2) = [t].
Proof.
  destruct (select_valid_index threeSteps (idleAt 1) (i := 2) eq_refl)
    as (t & Hn & Hi & _ & _ & _ & He & _).
  - change (0 <= 2 < 3). lia.
  - exists t. split; [exact Hn|]. split; [exact Hi|].
    apply He. cbn. lia.
Defined.

(** C7 as stated fails: an index outside the sequence is stored, and an
    active playback is paused. *)
Lemma out_of_range_click_changes_state :
  len threeSteps = 3
  /\ currentTimestep (playingAt 3 0) = 0
  /\ isPlaying (playingAt 3 0) = true
  /\ currentTimestep (handleTimestepClick (playingAt 3 0) 7) = 7
  /\ isPlaying (handleTimestepClick (playingAt 3 0) 7) = false
  /\ playInterval (handleTimestepClick (playingAt 3 0) 7) = None.
Proof. repeat split. Qed.

(** C7 (amended).  [handleTimestepClick] does not validate its argument:
    an out-of-range index becomes the current index and playback is
    switched off (the interval of an active playback is cleared, an idle
    controller keeps its cells otherwise).  Nothing fails: the current
    entry is [undefined], the label falls back to ["00:00"], and the
    listener is not called. *)
Theorem select_out_of_range (p : Props) (st : State) (i : Z) :
  ~ (0 <= i < len p) ->
  let st' := handleTimestepClick st i in
  currentTimestep st' = i
  /\ isPlaying st' = false
  /\ (isPlaying st = true -> playInterval st' = None)
  /\ (isPlaying st = false -> playInterval st' = playInterval st)
  /\ currentEntry p st' = None
  /\ currentLabel p st' = "00:00"%string
  /\ emitted p st st' = [].
Proof.
  intros Hout st'.
  destruct (click_state st i) as (Hi & Hp & Hc & Hk).
  assert (He : currentEntry p st' = None).
  { unfold currentEntry, st'. rewrite Hi. apply index_out_of_range. exact Hout. }
  repeat split; try assumption.
  - unfold currentLabel. rewrite He. reflexivity.
  - destruct (emitted_cases p st st') as [H|H]; [|exact H].
    rewrite H. unfold notifyEffect. rewrite He.
    destruct (onTimestepChange p); reflexivity.
Qed.

Lemma select_7_of_3 :
  currentTimestep (handleTimestepClick (playingAt 3 0) 7) = 7
  /\ currentEntry threeSteps (handleTimestepClick (playingAt 3 0) 7) = None
  /\ emitted threeSteps (playingAt 3 0) (handleTimestepClick (playingAt 3 0) 7)
     = [].
Proof.
  assert (Hout : ~ (0 <= 7 < len threeSteps)).
  { change (~ (0 <= 7 < 3)). lia. }
  destruct (select_out_of_range threeSteps (playingAt 3 0) Hout)
    as (Hi & _ & _ & _ & He & _ & Hm).
  split; [exact Hi|]. split; [exact He|exact Hm].
Defined.

End TimelineFacts.

(** ** Status colours *)

Section ColorFacts.

Import Colors.
Local Open Scope string_scope.

Lemma digit_runs_of_rgb_strings :
  matchDigits "rgb(255, 0, 0)" = Some ["255"; "0"; "0"]
  /\ matchDigits "rgb(255, 255, 0)" = Some ["255"; "255"; "0"]
  /\ matchDigits "rgb(0, 255, 0)" = Some ["0"; "255"; "0"]
  /\ matchDigits "rgb" = None.
Proof. repeat split. Qed.

(** C9.  For every status string the three numbers read back from
    [getStatusColorString status] by [match(/\d+/g).map(Number)] are the
    triple [getStatusColor status]; so the parsing done by the cable layers
    returns that triple whatever its fallback, and the mapping is red for
    ['down'], yellow for ['warning'] and ['high_load'], green otherwise. *)
Theorem color_string_agrees_with_color (status : string) :
  option_map (map Number) (matchDigits (getStatusColorString status))
  = Some (getStatusColor status)
  /\ (forall fallback,
        parseColorString fallback (getStatusColorString status)
        = getStatusColor status)
  /\ flowLayerRgb status = getStatusColor status
  /\ glowLayerRgb status = getStatusColor status
  /\ (status = "down" -> getStatusColor status = [255; 0; 0]%Z)
  /\ (status = "warning" \/ status = "high_load" ->
      getStatusColor status = [255; 255; 0]%Z)
  /\ (status <> "down" -> status <> "warning" -> status <> "high_load" ->
      getStatusColor status = [0; 255; 0]%Z).
Proof.
  unfold flowLayerRgb, glowLayerRgb, getStatusColorString, getStatusColor.
  destruct (String.eqb_spec status "down") as [Hd|Hd];
    [|destruct (String.eqb_spec status "warning") as [Hw|Hw];
      [|destruct (String.eqb_spec status "high_load") as [Hh|Hh]]];
    cbn [orb]; repeat split; intros; try reflexivity;
    try congruence; try (subst; discriminate).
  all: match goal with
       | H : _ \/ _ |- _ => destruct H; subst; try congruence; discriminate
       end.
Qed.

End ColorFacts.

(** ** Cable geometry *)

Section ArcFacts.

Import Arc.
Local Open Scope R_scope.

Lemma createArcPath_long (cs : list Point) :
  (2 <= List.length cs)%nat -> createArcPath cs = arcFrom cs.
Proof.
  intros H. unfold createArcPath.
  destruct (List.length cs <? 2)%nat eqn:E; [|reflexivity].
  apply Nat.ltb_lt in E. lia.
Qed.

Lemma createArcPath_short (cs : list Point) :
  (List.length cs < 2)%nat -> createArcPath cs = cs.
Proof.
  intros H. unfold createArcPath.
  apply Nat.ltb_lt in H. rewrite H. reflexivity.
Qed.

Lemma lastPoint_cons (c d : Point) (rest : list Point) :
  lastPoint (c :: d :: rest) = lastPoint (d :: rest).
Proof.
  unfold lastPoint. cbn [List.length].
  replace (S (S (List.length rest)) - 1)%nat with (S (List.length rest)) by lia.
  replace (S (List.length rest) - 1)%nat with (List.length rest) by lia.
  reflexivity.
Qed.


Lemma arcFrom_cons (c d : Point) (rest : list Point) :
  arcFrom (c :: d :: rest) = atBase c :: midPoint c d :: arcFrom (d :: rest).
Proof.
  unfold arcFrom. rewrite lastPoint_cons. reflexivity.
Qed.


Lemma arcFrom_length (cs : list Point) :
  cs <> [] -> List.length (arcFrom cs) = (2 * List.length cs - 1)%nat.
Proof.
  induction cs as [|c cs IH]; [congruence|]. intros _.
  destruct cs as [|d cs]; [reflexivity|].
  rewrite arcFrom_cons. cbn [List.length].
  rewrite IH by discriminate. cbn [List.length]. lia.
Qed.


Lemma planarDistance_nonneg (s e : Point) : 0 <= planarDistance s e.
Proof. apply sqrt_pos. Qed.

Lemma planarDistance_pos (s e : Point) :
  px s <> px e \/ py s <> py e -> 0 < planarDistance s e.
Proof.
  intros H. unfold planarDistance. apply sqrt_lt_R0.
  assert (Hx : 0 <= (px e - px s) ^ 2) by apply pow2_ge_0.
  assert (Hy : 0 <= (py e - py s) ^ 2) by apply pow2_ge_0.
  assert (Hsq : forall r, r <> 0 -> 0 < r ^ 2).
  { intros r Hr. rewrite <- Rsqr_pow2. apply Rsqr_pos_lt. exact Hr. }
  destruct H as [H|H].
  - assert (0 < (px e - px s) ^ 2) by (apply Hsq; lra). lra.
  - assert (0 < (py e - py s) ^ 2) by (apply Hsq; lra). lra.
Qed.

Lemma sagFactor_bounds (s e : Point) : 0 <= sagFactor s e <= 10.
Proof.
  unfold sagFactor. pose proof (planarDistance_nonneg s e).
  split; [apply Rmin_glb; lra | apply Rmin_r].
Qed.






End ArcFacts.

(** ** Cable geometry on doubles *)

Section ArcRounding.

Import PrimFloat.
Local Open Scope float_scope.

(** [Math.min] on doubles: the smaller argument, [-0] before [+0], and
    NaN as soon as one argument is NaN. *)
Lemma min_on_doubles :
  Arc64.min 0.25 10 = 0.25
  /\ Arc64.min 12.5 10 = 10
  /\ Arc64.min 10 10 = 10
  /\ Arc64.min (-0) 0 = (-0) /\ Arc64.min 0 (-0) = (-0)
  /\ Arc64.min nan 10 = nan /\ Arc64.min 0.25 nan = nan
  /\ Arc64.min infinity 10 = 10.
Proof. repeat (split; [reflexivity|]). reflexivity. Qed.

Lemma lastPoint64_cons (c d : Arc64.Point) (rest : list Arc64.Point) :
  Arc64.lastPoint (c :: d :: rest) = Arc64.lastPoint (d :: rest).
Proof.
  unfold Arc64.lastPoint. cbn [List.length].
  replace (S (S (List.length rest)) - 1)%nat with (S (List.length rest)) by lia.
  replace (S (List.length rest) - 1)%nat with (List.length rest) by lia.
  reflexivity.
Qed.

Lemma arcFrom64_cons (c d : Arc64.Point) (rest : list Arc64.Point) :
  Arc64.arcFrom (c :: d :: rest)
  = Arc64.atBase c :: Arc64.midPoint c d :: Arc64.arcFrom (d :: rest).
Proof.
  unfold Arc64.arcFrom. rewrite lastPoint64_cons. reflexivity.
Qed.

(** On doubles the path has the same shape: the waypoints at height 30 at
    the even positions and, between two of them, their midpoint at the
    rounded height [30 - min (sqrt (dx * dx + dy * dy) * 0.05) 10]. *)
#[warnings="-inexact-float"]
Lemma createArcPath_on_doubles (coordinates : list Arc64.Point) :
  forall (i : nat) (s e : Arc64.Point),
    nth_error coordinates i = Some s ->
    nth_error coordinates (S i) = Some e ->
    let dx := Arc64.px e - Arc64.px s in
    let dy := Arc64.py e - Arc64.py s in
    nth_error (Arc64.createArcPath coordinates) (2 * i)
    = Some (Arc64.P3 (Arc64.px s) (Arc64.py s) 30)
    /\ nth_error (Arc64.createArcPath coordinates) (2 * i + 1)
       = Some (Arc64.P3 ((Arc64.px s + Arc64.px e) / 2)
                        ((Arc64.py s + Arc64.py e) / 2)
                        (30 - Arc64.min (sqrt (dx * dx + dy * dy) * 0.05) 10)).
Proof.
  induction coordinates as [|c cs IH]; intros i s e Hs He.
  - destruct i; discriminate.
  - destruct cs as [|d cs]; [destruct i as [|[|i]]; discriminate|].
    change (Arc64.createArcPath (c :: d :: cs))
      with (Arc64.arcFrom (c :: d :: cs)).
    rewrite arcFrom64_cons. destruct i as [|i].
    + cbn in Hs, He. injection Hs as <-. injection He as <-.
      split; reflexivity.
    + cbn [nth_error] in Hs. change (nth_error (d :: cs) (S i) = Some e) in He.
      destruct (IH i s e Hs He) as (H0 & H1).
      assert (Hpath : Arc64.createArcPath (d :: cs) = Arc64.arcFrom (d :: cs)).
      { destruct cs as [|d' cs]; [destruct i; discriminate|reflexivity]. }
      rewrite Hpath in H0, H1.
      replace (2 * S i)%nat with (S (S (2 * i))) by lia.
      replace (S (S (2 * i)) + 1)%nat with (S (S (2 * i + 1))) by lia.
      cbn [nth_error]. split; assumption.
Qed.


(** On doubles a segment of length [1e-13] has its midpoint one unit in
    the last place below the base height. *)
#[warnings="-inexact-float"]
Lemma longer_segment_on_doubles :
  map Arc64.pz (Arc64.createArcPath [Arc64.P2 0 0; Arc64.P2 1e-13 0])
  = [Some 30; Some (30 - 0x1p-48); Some 30]
  /\ (30 - 0x1p-48 <? 30) = true.
Proof. split; reflexivity. Qed.


End ArcRounding.

(** ** Particles *)

Section IndexedLists.

Import Cable.
Context {A B : Type}.
Variable f : nat * A -> list B.
Variable key : B -> nat.
Hypothesis key_of : forall k a b, In b (f (k, a)) -> key b = k.

Lemma filter_key_same (k : nat) (a : A) :
  filter (fun b => key b =? k)%nat (f (k, a)) = f (k, a).
Proof.
  assert (H : forall l, (forall b, In b l -> key b = k) ->
                        filter (fun b => key b =? k)%nat l = l).
  { induction l as [|b l IH]; intros Hk; [reflexivity|]. cbn.
    rewrite (Hk b (or_introl eq_refl)), Nat.eqb_refl, IH; [reflexivity|].
    intros b' Hb'. apply Hk. right. exact Hb'. }
  apply H. intros b. apply key_of.
Qed.

Lemma filter_key_other (k k' : nat) (a : A) :
  k' <> k -> filter (fun b => key b =? k)%nat (f (k', a)) = [].
Proof.
  intros Hne.
  assert (H : forall l, (forall b, In b l -> key b = k') ->
                        filter (fun b => key b =? k)%nat l = []).
  { induction l as [|b l IH]; intros Hk; [reflexivity|]. cbn.
    rewrite (Hk b (or_introl eq_refl)).
    destruct (Nat.eqb_spec k' k); [contradiction|].
    apply IH. intros b' Hb'. apply Hk. right. exact Hb'. }
  apply H. intros b. apply key_of.
Qed.

Lemma filter_key_from (l : list A) :
  forall (start k : nat),
    filter (fun b => key b =? k)%nat
           (flat_map f (combine (seq start (List.length l)) l))
    = match (if (start <=? k)%nat then nth_error l (k - start) else None) with
      | Some a => f (k, a)
      | None => []
      end.
Proof.
  induction l as [|a l IH]; intros start k.
  - cbn. destruct (start <=? k)%nat; [destruct (k - start)%nat|]; reflexivity.
  - cbn [List.length seq combine flat_map]. rewrite filter_app, IH.
    destruct (Nat.eqb_spec start k) as [->|Hne].
    + rewrite filter_key_same, Nat.leb_refl, Nat.sub_diag. cbn [nth_error].
      replace (S k <=? k)%nat with false
        by (symmetry; apply Nat.leb_gt; lia).
      apply app_nil_r.
    + rewrite filter_key_other by exact Hne. cbn [app].
      destruct (Nat.leb_spec (S start) k) as [Hle|Hgt].
      * replace (start <=? k)%nat with true
          by (symmetry; apply Nat.leb_le; lia).
        replace (k - start)%nat with (S (k - S start)) by lia. reflexivity.
      * replace (start <=? k)%nat with false
          by (symmetry; apply Nat.leb_gt; lia).
        reflexivity.
Qed.

(** In the concatenation over an indexed list, the elements carrying the
    index [k] are those produced from the [k]-th entry. *)
Lemma filter_key_indexed (l : list A) (k : nat) :
  filter (fun b => key b =? k)%nat (flat_map f (indexed l))
  = match nth_error l k with
    | Some a => f (k, a)
    | None => []
    end.
Proof.
  unfold indexed. rewrite filter_key_from. cbn. rewrite Nat.sub_0_r.
  reflexivity.
Qed.

End IndexedLists.

Section ParticleFacts.

Import Arc Cable Particles.

Lemma indexed_length {A} (l : list A) : List.length (indexed l) = List.length l.
Proof.
  unfold indexed. rewrite length_combine, length_seq. apply Nat.min_id.
Qed.


Lemma segmentsOf_length {A} (a : list A) :
  List.length (segmentsOf a) = (List.length a - 1)%nat.
Proof.
  unfold segmentsOf. rewrite length_combine.
  destruct a as [|x a]; [reflexivity|]. cbn [List.length tl]. lia.
Qed.

Lemma flat_map_length_const {A B} (g : A -> list B) (n : nat) (l : list A) :
  (forall a, List.length (g a) = n) ->
  List.length (flat_map g l) = (List.length l * n)%nat.
Proof.
  intros Hg. induction l as [|a l IH]; [reflexivity|].
  cbn. rewrite length_app, Hg, IH. reflexivity.
Qed.

Lemma segmentParticles_length li c seg :
  List.length (segmentParticles li c seg) = particleCount.
Proof. reflexivity. Qed.

Lemma segmentParticles_In li c i seg p :
  In p (segmentParticles li c (i, seg)) ->
  lineIndex p = li /\ segmentIndex p = i
  /\ startPoint p = fst seg /\ endPoint p = snd seg /\ color p = c
  /\ (particleIndex p < particleCount)%nat
  /\ phase p = (INR (particleIndex p) / INR particleCount * 2 * PI)%R.
Proof.
  unfold segmentParticles. rewrite in_map_iff.
  intros (j & <- & Hj). apply in_seq in Hj. cbn.
  repeat split; try reflexivity. lia.
Qed.

Lemma lineParticles_key k line p :
  In p (lineParticles (k, line)) -> lineIndex p = k.
Proof.
  unfold lineParticles. cbn [fst snd].
  destruct (Cable.status line =? "down")%string; [intros []|].
  rewrite in_flat_map. intros ([i seg] & _ & Hp).
  apply segmentParticles_In in Hp. tauto.
Qed.

Lemma segmentParticles_key li c i seg p :
  In p (segmentParticles li c (i, seg)) -> segmentIndex p = i.
Proof. intros H. apply segmentParticles_In in H. tauto. Qed.

Lemma lineParticles_live k line :
  Cable.status line <> "down"%string ->
  lineParticles (k, line)
  = flat_map (segmentParticles k (Colors.getStatusColor (Cable.status line)))
             (indexed (segmentsOf (createArcPath (coordinates line)))).
Proof.
  intros H. unfold lineParticles. cbn [fst snd].
  destruct (String.eqb_spec (Cable.status line) "down"); [contradiction|].
  reflexivity.
Qed.

Lemma lineParticles_down k line :
  Cable.status line = "down"%string -> lineParticles (k, line) = [].
Proof.
  intros H. unfold lineParticles. cbn [fst snd]. rewrite H. reflexivity.
Qed.

Lemma phase_in_turn (j : nat) :
  (j < particleCount)%nat ->
  (0 <= INR j / INR particleCount * 2 * PI < 2 * PI)%R.
Proof.
  intros Hj. unfold particleCount in *. pose proof PI_RGT_0 as Hpi.
  destruct j as [|[|[|j]]]; [| | |lia]; cbn [INR]; split; lra.
Qed.

(** C4.  For the cable at position [li] of the collection: a cable whose
    status is ['down'] has no particle; any other cable has
    [(pointCount - 1) * particleCount] particles, where [pointCount] counts
    the points of its arc path, the path whose segments the loop walks
    (for [n >= 2] waypoints the arc path has [2 * n - 1] points, hence
    [2 * (n - 1)] segments of [particleCount = 3] particles each); the
    particles of each segment have the phases [j * (2 * PI / 3)] for
    [j = 0, 1, 2], all within [0, 2 * PI); and a cable with fewer than two
    waypoints has no particle. *)
Theorem generateParticles_per_cable
    (fs : list Feature) (li : nat) (line : Feature) :
  nth_error fs li = Some line ->
  let particles := generateParticles (Some {| features := Some fs |}) in
  let ofLine := filter (fun p => lineIndex p =? li)%nat particles in
  let pointCount := List.length (createArcPath (coordinates line)) in
  (Cable.status line = "down"%string -> ofLine = [])
  /\ (Cable.status line <> "down"%string ->
      List.length ofLine = ((pointCount - 1) * particleCount)%nat)
  /\ (Cable.status line <> "down"%string ->
      (2 <= List.length (coordinates line))%nat ->
      pointCount = (2 * List.length (coordinates line) - 1)%nat
      /\ List.length ofLine
         = (2 * (List.length (coordinates line) - 1) * particleCount)%nat)
  /\ ((List.length (coordinates line) < 2)%nat -> ofLine = [])
  /\ (Cable.status line <> "down"%string ->
      forall i, (i < pointCount - 1)%nat ->
        map phase (filter (fun p => segmentIndex p =? i)%nat ofLine)
        = [0 * (2 * PI / 3); 1 * (2 * PI / 3); 2 * (2 * PI / 3)]%R)
  /\ (forall p, In p particles -> (0 <= phase p < 2 * PI)%R).
Proof.
  intros Hline particles ofLine pointCount.
  set (arcPath := createArcPath (coordinates line)) in *.
  assert (Hof : ofLine = lineParticles (li, line)).
  { unfold ofLine, particles, generateParticles. cbn [features].
    rewrite (filter_key_indexed lineParticles lineIndex lineParticles_key).
    rewrite Hline. reflexivity. }
  assert (Hcount : Cable.status line <> "down"%string ->
            List.length ofLine = ((pointCount - 1) * particleCount)%nat).
  { intros Hlive. rewrite Hof, lineParticles_live by exact Hlive.
    rewrite flat_map_length_const with (n := particleCount)
      by (intros a; apply segmentParticles_length).
    rewrite indexed_length, segmentsOf_length. reflexivity. }
  split; [intros Hdown; rewrite Hof; apply lineParticles_down; exact Hdown|].
  split; [exact Hcount|].
  split.
  { intros Hlive Hlen.
    assert (Hpc : pointCount = (2 * List.length (coordinates line) - 1)%nat).
    { unfold pointCount, arcPath. rewrite createArcPath_long by exact Hlen.
      apply arcFrom_length. destruct (coordinates line);
        [cbn in Hlen; lia | discriminate]. }
    split; [exact Hpc|]. rewrite (Hcount Hlive), Hpc. f_equal. lia. }
  split.
  { intros Hshort. rewrite Hof. unfold lineParticles. cbn [fst snd].
    destruct (Cable.status line =? "down")%string; [reflexivity|].
    rewrite createArcPath_short by exact Hshort.
    destruct (coordinates line) as [|c [|d rest]]; try reflexivity.
    cbn in Hshort. lia. }
  split.
  { intros Hlive i Hi. rewrite Hof, lineParticles_live by exact Hlive.
    fold arcPath.
    rewrite (filter_key_indexed
               (segmentParticles li (Colors.getStatusColor (Cable.status line)))
               segmentIndex
               (@segmentParticles_key li
                  (Colors.getStatusColor (Cable.status line)))).
    destruct (nth_error (segmentsOf arcPath) i) as [seg|] eqn:Hseg.
    - unfold segmentParticles. rewrite map_map. cbn [map seq particleCount phase INR].
      repeat (f_equal; try lra).
    - apply nth_error_None in Hseg. rewrite segmentsOf_length in Hseg. lia. }
  intros p Hp. unfold particles, generateParticles in Hp. cbn [features] in Hp.
  apply in_flat_map in Hp. destruct Hp as ([k l] & _ & Hp).
  unfold lineParticles in Hp. cbn [fst snd] in Hp.
  destruct (Cable.status l =? "down")%string; [destruct Hp|].
  apply in_flat_map in Hp. destruct Hp as ([i seg] & _ & Hp).
  apply segmentParticles_In in Hp.
  destruct Hp as (_ & _ & _ & _ & _ & Hj & ->).
  apply phase_in_turn. exact Hj.
Qed.

End ParticleFacts.

Section ParticleExamples.

Import Arc Cable Particles.

Lemma particles_of_two_cables :
  let particles :=
    generateParticles (Some {| features := Some [liveCable; downCable] |}) in
  List.length (filter (fun p => lineIndex p =? 0)%nat particles) = 6%nat
  /\ filter (fun p => lineIndex p =? 1)%nat particles = [].
Proof.
  cbv zeta. split.
  - refine (proj2 (proj1 (proj2 (proj2
      (generateParticles_per_cable [liveCable; downCable] 0 eq_refl))) _ _)).
    + discriminate.
    + cbn. lia.
  - exact (proj1 (generateParticles_per_cable [liveCable; downCable] 1 eq_refl)
                 eq_refl).
Defined.

End ParticleExamples.

(** ** The effect that refreshes the particles *)

Section RefreshFacts.

Import Cable Particles.

(** C10.  After the effect has run, the particle set is empty whenever the
    power layer is hidden, the infrastructure data is missing, or the data
    has no cable collection, whatever particles the state held before;
    a non-empty particle set therefore means that cable data is present and
    the layer is visible, and it is then the set generated from that data.
    The effect writes no other cell. *)
Theorem particles_follow_cables_and_visibility (st : RootState) :
  let st' := updateParticlesEffect st in
  (power (layerVisibility st) = false -> powerParticles st' = [])
  /\ (infrastructureData st = None -> powerParticles st' = [])
  /\ (forall data, infrastructureData st = Some data ->
                   hierarchical_power_cables data = None ->
                   powerParticles st' = [])
  /\ (powerParticles st' <> [] ->
      exists data cables,
        infrastructureData st = Some data
        /\ hierarchical_power_cables data = Some cables
        /\ power (layerVisibility st) = true
        /\ powerParticles st' = generateParticles (Some cables))
  /\ infrastructureData st' = infrastructureData st
  /\ layerVisibility st' = layerVisibility st
  /\ animationFrame st' = animationFrame st.
Proof.
  unfold updateParticlesEffect.
  destruct (infrastructureData st) as [data|] eqn:Hd;
    [destruct (hierarchical_power_cables data) as [cables|] eqn:Hc;
     [destruct (power (layerVisibility st)) eqn:Hp|]|];
    cbn; rewrite ?Hd; repeat split; intros; try congruence.
  exists data, cables. repeat split; assumption.
Qed.

(** The frame counter stays within one 360-frame cycle. *)
Lemma animate_wraps (prev : nat) : (animate prev < 360)%nat.
Proof. unfold animate. apply Nat.mod_upper_bound. discriminate. Qed.

(** Hiding the power layer discards the particles of the previous cables. *)
Lemma hiding_power_clears_particles :
  let shown :=
    updateParticlesEffect
      {| infrastructureData := Some exampleData;
         layerVisibility := visibility true;
         animationFrame := 0;
         powerParticles := [] |} in
  let hidden :=
    updateParticlesEffect
      {| infrastructureData := infrastructureData shown;
         layerVisibility := visibility false;
         animationFrame := animationFrame shown;
         powerParticles := powerParticles shown |} in
  List.length (powerParticles shown) = 6%nat /\ powerParticles hidden = [].
Proof. split; reflexivity. Qed.

End RefreshFacts.

(** ** Positions and fading along a segment *)

Section PositionFacts.

Import Arc Cable Particles.
Local Open Scope R_scope.

Lemma truncate_nonneg (r : R) : 0 <= r -> truncate r = Int_part r.
Proof.
  intros H. unfold truncate. destruct (Rle_dec 0 r); [reflexivity|contradiction].
Qed.

(** For a non-negative dividend and a positive divisor, [%] lands in
    [0, y). *)
Lemma fmod_bounds (x y : R) : 0 <= x -> 0 < y -> 0 <= fmod x y < y.
Proof.
  intros Hx Hy. unfold fmod.
  assert (Hq : 0 <= x / y).
  { unfold Rdiv. apply Rmult_le_pos; [exact Hx|].
    left. apply Rinv_0_lt_compat. exact Hy. }
  rewrite truncate_nonneg by exact Hq.
  destruct (base_Int_part (x / y)) as [Hle Hgt].
  set (k := IZR (Int_part (x / y))) in *.
  assert (Hxy : x = y * (x / y)) by (field; lra).
  split.
  - assert (y * k <= y * (x / y)) by (apply Rmult_le_compat_l; lra). lra.
  - assert (y * (x / y - 1) < y * k) by (apply Rmult_lt_compat_l; lra). lra.
Qed.

Lemma fmod_zero (y : R) : fmod 0 y = 0.
Proof.
  unfold fmod. replace (0 / y) with 0 by (unfold Rdiv; ring).
  rewrite truncate_nonneg by lra.
  replace (Int_part 0) with 0%Z by (apply Int_part_spec; cbn; lra).
  cbn. ring.
Qed.

Lemma arcFrom_points_3d (cs : list Point) (q : Point) :
  In q (arcFrom cs) -> pz q <> None.
Proof.
  unfold arcFrom, lastPoint. rewrite in_app_iff, in_flat_map.
  intros [([a b] & _ & [<-|[<-|[]]])|H]; try discriminate.
  destruct (nth_error cs (List.length cs - 1)); [|destruct H].
  destruct H as [<-|[]]. discriminate.
Qed.

(** Every particle travels between two three-dimensional points, so its
    interpolated height is always a number. *)
Lemma generated_particles_are_3d (cables : option FeatureCollection) (p : Particle) :
  In p (generateParticles cables) ->
  pz (startPoint p) <> None /\ pz (endPoint p) <> None.
Proof.
  unfold generateParticles.
  destruct cables as [[[fs|]]|]; cbn [features]; [|intros []|intros []].
  rewrite in_flat_map. intros ([k line] & _ & Hp).
  unfold lineParticles in Hp. cbn [fst snd] in Hp.
  destruct (Cable.status line =? "down")%string; [destruct Hp|].
  apply in_flat_map in Hp. destruct Hp as ([i [a b]] & Hseg & Hp).
  apply segmentParticles_In in Hp.
  destruct Hp as (_ & _ & Hs & He & _). cbn [fst snd] in Hs, He.
  unfold indexed in Hseg. apply in_combine_r in Hseg.
  unfold segmentsOf in Hseg.
  assert (Ha : In a (createArcPath (coordinates line)))
    by (apply (in_combine_l _ _ _ _ Hseg)).
  assert (Hb : In b (createArcPath (coordinates line))).
  { apply in_combine_r in Hseg.
    destruct (createArcPath (coordinates line)); [destruct Hseg|].
    right. exact Hseg. }
  unfold createArcPath in Ha, Hb, Hseg.
  destruct (List.length (coordinates line) <? 2)%nat eqn:E.
  - apply Nat.ltb_lt in E.
    destruct (coordinates line) as [|c [|d rest]]; cbn in Hseg, E;
      [destruct Hseg | destruct Hseg | lia].
  - rewrite Hs, He. split; eapply arcFrom_points_3d; eassumption.
Qed.

Lemma firstParticle_generated :
  In firstParticle (generateParticles (hierarchical_power_cables exampleData)).
Proof. left. reflexivity. Qed.

Lemma progress_first_frame : progress 0 firstParticle = 0.
Proof.
  unfold progress. cbn [phase firstParticle INR particleCount].
  replace (0 * 0.02 + 0 / (1 + 1 + 1) * 2 * PI) with 0 by (unfold Rdiv; ring).
  rewrite fmod_zero. unfold Rdiv. ring.
Qed.

(** C3 as stated fails: at frame 0 the first particle is at [t = 0], where
    [sin (t * PI)] is 0, but the fade factor the code produces is 0.2. *)
Lemma alpha_at_start_is_not_zero :
  progress 0 firstParticle = 0
  /\ sin (progress 0 firstParticle * PI) = 0
  /\ Positioned.alpha (positionAtFrame 0 firstParticle) = 0.2
  /\ Positioned.alpha (positionAtFrame 0 firstParticle)
     <> sin (progress 0 firstParticle * PI).
Proof.
  assert (Hs : sin (progress 0 firstParticle * PI) = 0).
  { rewrite progress_first_frame, Rmult_0_l. apply sin_0. }
  assert (Ha : Positioned.alpha (positionAtFrame 0 firstParticle) = 0.2).
  { unfold positionAtFrame. cbn [Positioned.alpha]. rewrite Hs. lra. }
  split; [apply progress_first_frame|]. split; [exact Hs|].
  split; [exact Ha|]. rewrite Ha, Hs. lra.
Qed.

(** C3 (amended).  For a particle of non-negative phase at frame [frame],
    [t] is [((frame * 0.02 + phase) mod 2 PI) / (2 PI)] and lies in
    [0, 1); the position is the linear interpolation from the start point
    to the end point at [t]; the fade factor is [sin (t * PI) * 0.8 + 0.2]:
    it stays within [0.2, 1], is 0.2 at [t = 0] and reaches its maximum 1
    at [t = 1/2]. *)
Theorem position_and_fade_at_frame (frame : nat) (p : Particle) :
  0 <= phase p ->
  let t := progress frame p in
  let q := positionAtFrame frame p in
  t = fmod (INR frame * 0.02 + phase p) (2 * PI) / (2 * PI)
  /\ 0 <= t < 1
  /\ Positioned.position q = interpolatePosition (startPoint p) (endPoint p) t
  /\ (forall sx sy sz ex ey ez,
        startPoint p = P3 sx sy sz -> endPoint p = P3 ex ey ez ->
        Positioned.position q
        = (sx + (ex - sx) * t, sy + (ey - sy) * t, Some (sz + (ez - sz) * t)))
  /\ Positioned.alpha q = sin (t * PI) * 0.8 + 0.2
  /\ 0.2 <= Positioned.alpha q <= 1
  /\ (t = 0 -> Positioned.alpha q = 0.2)
  /\ (t = 1 / 2 -> Positioned.alpha q = 1).
Proof.
  intros Hphase t q. pose proof PI_RGT_0 as Hpi.
  assert (Hx : 0 <= INR frame * 0.02 + phase p).
  { pose proof (pos_INR frame). lra. }
  assert (Hy : 0 < 2 * PI) by lra.
  assert (Ht : 0 <= t < 1).
  { pose proof (fmod_bounds Hx Hy) as [Hlo Hhi]. unfold t, progress.
    split.
    - unfold Rdiv. apply Rmult_le_pos; [exact Hlo|].
      left. apply Rinv_0_lt_compat. exact Hy.
    - apply (Rmult_lt_reg_r (2 * PI)); [exact Hy|].
      unfold Rdiv. rewrite Rmult_assoc, Rinv_l by lra. lra. }
  assert (Hsin : 0 <= sin (t * PI) <= 1).
  { split; [|apply SIN_bound].
    apply sin_ge_0.
    - apply Rmult_le_pos; lra.
    - rewrite <- (Rmult_1_l PI) at 2. apply Rmult_le_compat_r; lra. }
  split; [reflexivity|]. split; [exact Ht|]. split; [reflexivity|].
  split.
  { intros sx sy sz ex ey ez Hs He. unfold q, positionAtFrame.
    cbn [Positioned.position]. rewrite Hs, He. reflexivity. }
  split; [reflexivity|].
  split; [unfold q, positionAtFrame; cbn [Positioned.alpha]; fold t; lra|].
  split.
  - intros H0. unfold q, positionAtFrame. cbn [Positioned.alpha]. fold t.
    rewrite H0, Rmult_0_l, sin_0. lra.
  - intros Hh. unfold q, positionAtFrame. cbn [Positioned.alpha]. fold t.
    rewrite Hh. replace (1 / 2 * PI) with (PI / 2) by (unfold Rdiv; ring).
    rewrite sin_PI2. lra.
Qed.

Lemma firstParticle_at_frame_0 :
  0 <= progress 0 firstParticle < 1
  /\ Positioned.alpha (positionAtFrame 0 firstParticle)
     = sin (progress 0 firstParticle * PI) * 0.8 + 0.2.
Proof.
  assert (Hphase : 0 <= phase firstParticle).
  { cbn [phase firstParticle INR particleCount]. pose proof PI_RGT_0.
    unfold Rdiv. rewrite !Rmult_0_l. lra. }
  destruct (position_and_fade_at_frame 0 firstParticle Hphase)
    as (_ & Ht & _ & _ & Ha & _).
  split; [exact Ht|exact Ha].
Defined.

End PositionFacts.

(** ** Junctions *)

Section JunctionMapFacts.

Import Arc Cable Junctions JunctionSpec JunctionTrace.
Local Open Scope string_scope.

Lemma get_set_same (k : string) (j : Junction) (m : JMap) :
  get k (set k j m) = Some j.
Proof.
  induction m as [|[k' j'] m IH]; cbn.
  - rewrite String.eqb_refl. reflexivity.
  - destruct (String.eqb_spec k k') as [->|Hne]; cbn.
    + rewrite String.eqb_refl. reflexivity.
    + destruct (String.eqb_spec k k'); [contradiction|]. exact IH.
Qed.

Lemma get_set_other (k k' : string) (j : Junction) (m : JMap) :
  k' <> k -> get k' (set k j m) = get k' m.
Proof.
  intros Hne. induction m as [|[k0 j0] m IH]; cbn.
  - destruct (String.eqb_spec k' k); [contradiction|]. reflexivity.
  - destruct (String.eqb_spec k k0) as [->|Hk]; cbn.
    + destruct (String.eqb_spec k' k0); [contradiction|]. reflexivity.
    + destruct (String.eqb_spec k' k0); [reflexivity|]. exact IH.
Qed.

Lemma get_in_keys (k : string) (m : JMap) :
  existsb (String.eqb k) (map fst m)
  = match get k m with Some _ => true | None => false end.
Proof.
  induction m as [|[k' j'] m IH]; [reflexivity|]. cbn.
  destruct (k =? k'); [reflexivity|]. exact IH.
Qed.

Lemma keys_set (k : string) (j : Junction) (m : JMap) :
  map fst (set k j m) = remember (map fst m) k.
Proof.
  unfold remember. induction m as [|[k' j'] m IH]; [reflexivity|]. cbn.
  destruct (k =? k'); [reflexivity|]. cbn. rewrite IH.
  destruct (existsb (String.eqb k) (map fst m)); reflexivity.
Qed.

Lemma keys_set_present (k : string) (j j' : Junction) (m : JMap) :
  get k m = Some j' -> map fst (set k j m) = map fst m.
Proof.
  intros H. rewrite keys_set. unfold remember.
  rewrite get_in_keys, H. reflexivity.
Qed.

(** What one visit does to the entry of an arbitrary key. *)
Lemma get_visit (k : string) (m : JMap) (v : Visit) :
  get k (visit m v) = if keyOf v =? k then evolve (get k m) v else get k m.
Proof.
  unfold keyOf. destruct (String.eqb_spec (junctionKey (snd v)) k) as [<-|Hne].
  - unfold visit, visitCoord, evolve, touch.
    destruct (get (junctionKey (snd v)) m) as [existing|] eqn:Hget.
    + destruct ((fst v =? "down")
                && negb (Junctions.status existing =? "down"));
        [|destruct ((fst v =? "warning")
                    && (Junctions.status existing =? "operational"))];
        rewrite ?get_set_same, ?Hget, ?get_set_same; reflexivity.
    + rewrite !get_set_same. reflexivity.
  - assert (Hother : forall j m', get k (set (junctionKey (snd v)) j m')
                                  = get k m').
    { intros j m'. apply get_set_other. congruence. }
    unfold visit, visitCoord.
    destruct (get (junctionKey (snd v)) m) as [existing|] eqn:Hget.
    + destruct ((fst v =? "down")
                && negb (Junctions.status existing =? "down"));
        [|destruct ((fst v =? "warning")
                    && (Junctions.status existing =? "operational"))];
        rewrite ?get_set_same, ?Hget, ?Hother; reflexivity.
    + rewrite get_set_same, !Hother. reflexivity.
Qed.

Lemma keys_visit (m : JMap) (v : Visit) :
  map fst (visit m v) = remember (map fst m) (keyOf v).
Proof.
  unfold visit, visitCoord, keyOf.
  set (key := junctionKey (snd v)).
  assert (Hinc : forall m1 j, get key m1 = Some j ->
             map fst (set key (increment j) m1) = map fst m1).
  { intros m1 j Hj. apply keys_set_present with (j' := j). exact Hj. }
  assert (Hsame : forall j', get key m = Some j' ->
             remember (map fst m) key = map fst m).
  { intros j' Hj'. unfold remember. rewrite get_in_keys, Hj'. reflexivity. }
  destruct (get key m) as [existing|] eqn:Hget.
  - rewrite (Hsame existing eq_refl).
    destruct ((fst v =? "down") && negb (Junctions.status existing =? "down")).
    + rewrite get_set_same, (Hinc _ _ (get_set_same _ _ _)).
      apply keys_set_present with (j' := existing). exact Hget.
    + destruct ((fst v =? "warning")
                && (Junctions.status existing =? "operational")).
      * rewrite get_set_same, (Hinc _ _ (get_set_same _ _ _)).
        apply keys_set_present with (j' := existing). exact Hget.
      * rewrite Hget. apply Hinc. exact Hget.
  - rewrite get_set_same, (Hinc _ _ (get_set_same _ _ _)). apply keys_set.
Qed.

(** The two nested loops visit the coordinates of [visits] in order. *)
Lemma junctionPoints_visits (fs : list Feature) :
  junctionPoints fs = fold_left visit (visits fs) [].
Proof.
  unfold junctionPoints, visits. generalize (@nil (string * Junction)).
  induction fs as [|line fs IH]; intros m; [reflexivity|].
  cbn [fold_left flat_map]. rewrite fold_left_app, IH. f_equal.
  unfold visitLine. generalize (coordinates line) m.
  induction l as [|c l IHl]; intros m0; [reflexivity|].
  cbn [map fold_left]. apply IHl.
Qed.

Lemma get_fold_visit (k : string) (vs : list Visit) :
  forall m,
    get k (fold_left visit vs m)
    = fold_left evolve (filter (fun v => keyOf v =? k) vs) (get k m).
Proof.
  induction vs as [|v vs IH]; intros m; [reflexivity|].
  cbn [fold_left filter]. rewrite IH, get_visit.
  destruct (keyOf v =? k); reflexivity.
Qed.

Lemma keys_fold_visit (vs : list Visit) :
  forall m,
    map fst (fold_left visit vs m)
    = fold_left remember (map keyOf vs) (map fst m).
Proof.
  induction vs as [|v vs IH]; intros m; [reflexivity|].
  cbn [fold_left map]. rewrite IH, keys_visit. reflexivity.
Qed.

(** The entry of a key is determined by the group of that key. *)
Lemma get_junctionPoints (k : string) (fs : list Feature) :
  get k (junctionPoints fs) = fold_left evolve (group k fs) None.
Proof. rewrite junctionPoints_visits, get_fold_visit. reflexivity. Qed.

Lemma keys_junctionPoints (fs : list Feature) :
  map fst (junctionPoints fs) = keys fs.
Proof. rewrite junctionPoints_visits, keys_fold_visit. reflexivity. Qed.

End JunctionMapFacts.

Section JunctionGroupFacts.

Import Arc Cable Junctions JunctionSpec JunctionTrace.
Local Open Scope string_scope.

Lemma touch_fields (existing : Junction) (v : Visit) :
  Junctions.status (touch existing v)
  = escalate (Junctions.status existing) (fst v)
  /\ count (touch existing v) = count existing
  /\ position (touch existing v) = position existing
  /\ (color existing = Colors.getStatusColor (Junctions.status existing) ->
      color (touch existing v)
      = Colors.getStatusColor (Junctions.status (touch existing v))).
Proof.
  unfold touch, escalate.
  destruct (String.eqb_spec (fst v) "down") as [Hd|Hd]; cbn [andb].
  - destruct (negb (Junctions.status existing =? "down")); cbn.
    + rewrite Hd. repeat split; reflexivity.
    + rewrite Hd. cbn. repeat split; try reflexivity. intros H. exact H.
  - destruct (String.eqb_spec (fst v) "warning") as [Hw|Hw]; cbn [andb].
    + destruct (Junctions.status existing =? "operational"); cbn.
      * rewrite Hw. repeat split; reflexivity.
      * repeat split; try reflexivity. intros H. exact H.
    + repeat split; try reflexivity. intros H. exact H.
Qed.

Lemma evolve_rest (rest : list Visit) :
  forall j,
    color j = Colors.getStatusColor (Junctions.status j) ->
    exists j',
      fold_left evolve rest (Some j) = Some j'
      /\ position j' = position j
      /\ count j' = (count j + List.length rest)%nat
      /\ Junctions.status j'
         = fold_left escalate (map fst rest) (Junctions.status j)
      /\ color j' = Colors.getStatusColor (Junctions.status j').
Proof.
  induction rest as [|v rest IH]; intros j Hc.
  - exists j. cbn. rewrite Nat.add_0_r. repeat split; trivial.
  - destruct (touch_fields j v) as (Hs & Hn & Hp & Hcol).
    destruct (IH (increment (touch j v))) as (j' & Hj' & Hp' & Hn' & Hs' & Hc').
    { cbn. apply Hcol. exact Hc. }
    exists j'. cbn [fold_left evolve map List.length].
    split; [exact Hj'|]. cbn in Hp', Hn', Hs'.
    split; [congruence|]. split; [rewrite Hn', Hn; lia|].
    split; [rewrite Hs', Hs; reflexivity|exact Hc'].
Qed.

Lemma evolve_group (g : list Visit) : fold_left evolve g None = junctionOf g.
Proof.
  destruct g as [|first rest]; [reflexivity|].
  change (fold_left evolve (first :: rest) None)
    with (fold_left evolve rest (Some (increment (fresh first)))).
  destruct (@evolve_rest rest (increment (fresh first)) eq_refl)
    as (j' & Hj' & Hp & Hn & Hs & Hc).
  rewrite Hj'. unfold junctionOf. f_equal.
  destruct j' as [p n c s]. cbn in Hp, Hn, Hs, Hc. cbn [map aggregate].
  subst p n. rewrite Hc, Hs. reflexivity.
Qed.

(** The map holds, for every key, the closed form of its group. *)
Lemma get_junctionPoints_group (k : string) (fs : list Feature) :
  get k (junctionPoints fs) = junctionOf (group k fs).
Proof. rewrite get_junctionPoints. apply evolve_group. Qed.

Lemma statusAt_group (k : string) (fs : list Feature) :
  group k fs <> [] -> statusAt k fs = Some (aggregate (statuses k fs)).
Proof.
  intros Hne. unfold statusAt, statuses. rewrite get_junctionPoints_group.
  destruct (group k fs) as [|first rest]; [congruence|]. reflexivity.
Qed.

Lemma existsb_In (s : string) (l : list string) :
  existsb (String.eqb s) l = true <-> In s l.
Proof.
  rewrite existsb_exists. split.
  - intros (x & Hx & He). apply String.eqb_eq in He. subst. exact Hx.
  - intros H. exists s. split; [exact H|apply String.eqb_refl].
Qed.

Lemma worst_cons (s : string) (sts : list string) :
  worst (s :: sts)
  = if (s =? "down") || existsb (String.eqb "down") sts then "down"
    else if (s =? "warning") || existsb (String.eqb "warning") sts
    then "warning" else "operational".
Proof.
  unfold worst. cbn [existsb].
  rewrite (String.eqb_sym "down" s), (String.eqb_sym "warning" s).
  reflexivity.
Qed.

Lemma escalate_cable_status (a s : string) :
  isCableStatus a -> isCableStatus s -> isCableStatus (escalate a s).
Proof.
  unfold isCableStatus.
  intros [-> | [-> | ->]] [-> | [-> | ->]]; cbn; tauto.
Qed.

(** On the three cable statuses the incremental update computes the worst
    status seen so far. *)
Lemma fold_escalate_worst (rest : list string) :
  forall a,
    isCableStatus a -> Forall isCableStatus rest ->
    fold_left escalate rest a = worst (a :: rest).
Proof.
  induction rest as [|s rest IH]; intros a Ha Hrest.
  - destruct Ha as [-> | [-> | ->]]; reflexivity.
  - inversion Hrest as [|? ? Hs Hrest']; subst.
    cbn [fold_left]. rewrite IH; [|apply escalate_cable_status; assumption|assumption].
    rewrite !worst_cons. cbn [existsb].
    destruct Ha as [-> | [-> | ->]]; destruct Hs as [-> | [-> | ->]];
      destruct (existsb (String.eqb "down") rest),
               (existsb (String.eqb "warning") rest); reflexivity.
Qed.

Lemma aggregate_worst (sts : list string) :
  sts <> [] -> Forall isCableStatus sts -> aggregate sts = worst sts.
Proof.
  intros Hne Hall. destruct sts as [|a rest]; [congruence|].
  inversion Hall; subst. apply fold_escalate_worst; assumption.
Qed.

(** Whatever the status strings, the aggregate is ['down'] exactly when
    some cable of the group is down. *)
Lemma fold_escalate_down (rest : list string) :
  forall a, fold_left escalate rest a = "down" <-> a = "down" \/ In "down" rest.
Proof.
  induction rest as [|s rest IH]; intros a; cbn [fold_left In].
  - tauto.
  - rewrite IH. unfold escalate.
    destruct (String.eqb_spec s "down") as [->|Hs];
      destruct (String.eqb_spec a "down") as [->|Ha]; cbn [andb negb].
    + tauto.
    + tauto.
    + destruct (String.eqb_spec s "warning"); cbn [andb];
        split; intros [H|H]; try tauto; try congruence;
        destruct H; try tauto; congruence.
    + destruct (String.eqb_spec s "warning") as [->|Hw]; cbn [andb].
      * destruct (a =? "operational"); split; intros [H|H];
          try tauto; try discriminate; try congruence;
          destruct H; try tauto; try discriminate; congruence.
      * split; intros [H|H]; try tauto; try congruence;
          destruct H; try tauto; congruence.
Qed.

Lemma aggregate_down (sts : list string) :
  sts <> [] -> (aggregate sts = "down" <-> In "down" sts).
Proof.
  intros Hne. destruct sts as [|a rest]; [congruence|].
  cbn [aggregate In]. rewrite fold_escalate_down.
  split; intros [H|H]; auto.
Qed.

(** Outside the three cable statuses the update is not an order-free
    maximum: ['normal'] met first is kept when a warning follows, while a
    warning met first is kept when ['normal'] follows. *)
Lemma aggregate_of_other_statuses :
  aggregate ["normal"; "warning"] = "normal"
  /\ aggregate ["warning"; "normal"] = "warning".
Proof. split; reflexivity. Qed.

Lemma in_visits (v : Visit) (fs : list Feature) :
  In v (visits fs)
  <-> exists line, In line fs /\ fst v = Cable.status line
                   /\ In (snd v) (coordinates line).
Proof.
  unfold visits. rewrite in_flat_map. split.
  - intros (line & Hl & Hv). apply in_map_iff in Hv.
    destruct Hv as (c & <- & Hc). exists line. auto.
  - intros (line & Hl & Hs & Hc). exists line. split; [exact Hl|].
    apply in_map_iff. exists (snd v). split; [|exact Hc].
    rewrite <- Hs. destruct v; reflexivity.
Qed.

Lemma in_statuses (s k : string) (fs : list Feature) :
  In s (statuses k fs)
  <-> exists line c, In line fs /\ Cable.status line = s
                     /\ In c (coordinates line) /\ junctionKey c = k.
Proof.
  unfold statuses, group. rewrite in_map_iff. split.
  - intros (v & <- & Hv). apply filter_In in Hv. destruct Hv as [Hv Hk].
    apply in_visits in Hv. destruct Hv as (line & Hl & Hs & Hc).
    exists line, (snd v). apply String.eqb_eq in Hk. auto.
  - intros (line & c & Hl & Hs & Hc & Hk). exists (s, c).
    split; [reflexivity|]. apply filter_In. split.
    + apply in_visits. exists line. auto.
    + unfold keyOf. cbn. apply String.eqb_eq. exact Hk.
Qed.

Lemma statuses_cable_status (k : string) (fs : list Feature) :
  Forall (fun line => isCableStatus (Cable.status line)) fs ->
  Forall isCableStatus (statuses k fs).
Proof.
  intros Hall. apply Forall_forall. intros s Hs.
  apply in_statuses in Hs. destruct Hs as (line & c & Hl & <- & _).
  rewrite Forall_forall in Hall. apply Hall. exact Hl.
Qed.

Lemma statuses_nonempty (k : string) (fs : list Feature) :
  group k fs <> [] <-> statuses k fs <> [].
Proof.
  unfold statuses. destruct (group k fs); cbn; split; congruence.
Qed.

Lemma statuses_permutation (k : string) (fs fs' : list Feature) :
  Permutation fs fs' ->
  forall s, In s (statuses k fs) <-> In s (statuses k fs').
Proof.
  intros Hp s. rewrite !in_statuses.
  split; intros (line & c & Hl & H); exists line, c; split; try exact H.
  - apply (Permutation_in _ Hp). exact Hl.
  - apply (Permutation_in _ (Permutation_sym Hp)). exact Hl.
Qed.

Lemma worst_membership (sts sts' : list string) :
  (forall s, In s sts <-> In s sts') -> worst sts = worst sts'.
Proof.
  intros H. unfold worst.
  assert (E : forall s, existsb (String.eqb s) sts
                        = existsb (String.eqb s) sts').
  { intros s. apply eq_true_iff_eq. rewrite !existsb_In. apply H. }
  rewrite !E. reflexivity.
Qed.

End JunctionGroupFacts.

Section DistinctFacts.

Import JunctionSpec.

Lemma remember_In (seen : list string) (k x : string) :
  In x (remember seen k) <-> In x seen \/ x = k.
Proof.
  unfold remember.
  destruct (existsb (String.eqb k) seen) eqn:E.
  - apply existsb_In in E. split; [auto|]. intros [H | ->]; assumption.
  - rewrite in_app_iff. cbn. split; intros [H|H]; auto.
    + destruct H; [auto|contradiction].
Qed.

Lemma remember_NoDup (seen : list string) (k : string) :
  NoDup seen -> NoDup (remember seen k).
Proof.
  intros Hnd. unfold remember.
  destruct (existsb (String.eqb k) seen) eqn:E; [exact Hnd|].
  assert (Hk : ~ In k seen).
  { intros Hin. apply existsb_In in Hin. congruence. }
  clear E. induction seen as [|a seen IH]; cbn.
  - constructor; [intros []|constructor].
  - inversion Hnd as [|? ? Ha Hnd']; subst. constructor.
    + rewrite in_app_iff. cbn. intros [H|[H|[]]]; [contradiction|].
      apply Hk. left. symmetry. exact H.
    + apply IH; [exact Hnd'|]. intros H. apply Hk. right. exact H.
Qed.

Lemma fold_remember (ks : list string) :
  forall seen,
    NoDup seen ->
    NoDup (fold_left remember ks seen)
    /\ forall x, In x (fold_left remember ks seen) <-> In x seen \/ In x ks.
Proof.
  induction ks as [|k ks IH]; intros seen Hnd; cbn [fold_left].
  - split; [exact Hnd|]. intros x. cbn. tauto.
  - destruct (IH (remember seen k) (remember_NoDup k Hnd)) as [Hn Hin].
    split; [exact Hn|]. intros x. rewrite Hin, remember_In. cbn.
    split; intros H; intuition congruence.
Qed.

Lemma distinct_NoDup (ks : list string) : NoDup (distinct ks).
Proof. apply fold_remember. constructor. Qed.

Lemma distinct_In (ks : list string) (x : string) :
  In x (distinct ks) <-> In x ks.
Proof.
  unfold distinct. destruct (fold_remember ks (NoDup_nil string)) as [_ H].
  rewrite H. cbn. tauto.
Qed.

Lemma keys_In (k : string) (fs : list Cable.Feature) :
  In k (keys fs) <-> group k fs <> [].
Proof.
  unfold keys, group. rewrite distinct_In, in_map_iff. split.
  - intros (v & Hk & Hv) Hempty.
    assert (Hin : In v (filter (fun v => (keyOf v =? k)%string) (visits fs))).
    { apply filter_In. split; [exact Hv|]. apply String.eqb_eq. exact Hk. }
    rewrite Hempty in Hin. destruct Hin.
  - intros Hne.
    destruct (filter (fun v => (keyOf v =? k)%string) (visits fs))
      as [|v rest] eqn:E; [congruence|].
    assert (Hin : In v (filter (fun v => (keyOf v =? k)%string) (visits fs)))
      by (rewrite E; left; reflexivity).
    apply filter_In in Hin. destruct Hin as [Hv Hk].
    exists v. split; [apply String.eqb_eq; exact Hk|exact Hv].
Qed.

End DistinctFacts.

(** ** Key texts *)

Section KeyTexts.

Import Arc Junctions Measures JunctionWording.
Local Open Scope string_scope.

Lemma length_append (a b : string) :
  String.length (a ++ b) = (String.length a + String.length b)%nat.
Proof. induction a as [|c a IH]; [reflexivity|]. cbn. rewrite IH. reflexivity. Qed.

Lemma append_assoc (a b c : string) : (a ++ b) ++ c = a ++ (b ++ c).
Proof. induction a as [|x a IH]; [reflexivity|]. cbn. rewrite IH. reflexivity. Qed.

Lemma substring_all (s : string) : substring 0 (String.length s) s = s.
Proof. induction s as [|c s IH]; [reflexivity|]. cbn. rewrite IH. reflexivity. Qed.

Lemma startsWithMinus_append (s t : string) :
  s <> EmptyString -> startsWithMinus (s ++ t) = startsWithMinus s.
Proof. destruct s; [congruence|reflexivity]. Qed.

Lemma toString_unsigned (n : N) : startsWithMinus (Js.toString n) = false.
Proof. unfold Js.toString. destruct (N.to_uint n); reflexivity. Qed.

Lemma padStart_unsigned (n : nat) (s : string) :
  startsWithMinus s = false ->
  startsWithMinus (Js.padStart n "0" s) = false.
Proof.
  intros H. unfold Js.padStart.
  destruct (n - String.length s)%nat; [exact H|reflexivity].
Qed.

Lemma fixedDigits_unsigned (n : Z) (f : nat) :
  startsWithMinus (fixedDigits n f) = false
  /\ fixedDigits n f <> EmptyString.
Proof.
  unfold fixedDigits.
  set (m := Js.padStart (f + 1) "0" (Js.toString (Z.to_N n))).
  assert (Hm : startsWithMinus m = false)
    by (apply padStart_unsigned, toString_unsigned).
  generalize (String.length m - f)%nat. intros a.
  destruct m as [|c m]; destruct a as [|a]; cbn in *;
    (split; [try reflexivity; exact Hm|discriminate]).
Qed.

Lemma toFixed_sign (f : nat) (x : R) :
  toFixed f x <> EmptyString
  /\ startsWithMinus (toFixed f x) = if Rlt_dec x 0 then true else false.
Proof.
  unfold toFixed. destruct (Rlt_dec x 0).
  - split; [discriminate|reflexivity].
  - destruct (fixedDigits_unsigned (nearest x f) f) as [Hs Hne].
    split; assumption.
Qed.

Lemma length_repeatChar (c : ascii) (n : nat) :
  String.length (Js.repeatChar c n) = n.
Proof. induction n as [|n IH]; [reflexivity|]. cbn. rewrite IH. reflexivity. Qed.

Lemma padStart_length (n : nat) (c : ascii) (s : string) :
  (n <= String.length (Js.padStart n c s))%nat.
Proof.
  unfold Js.padStart. rewrite length_append, length_repeatChar. lia.
Qed.

Lemma substring_split (m : string) :
  forall a b,
    (a + b = String.length m)%nat -> substring 0 a m ++ substring a b m = m.
Proof.
  induction m as [|c m IH]; intros a b H.
  - destruct a; destruct b; try discriminate. reflexivity.
  - destruct a as [|a].
    + cbn [Nat.add String.length] in H. subst b. cbn.
      rewrite substring_all. reflexivity.
    + cbn in H. cbn. rewrite IH by lia. reflexivity.
Qed.

Lemma digit_is_no_mark (c : ascii) :
  Colors.isDigit c = true -> Ascii.eqb c "." = false /\ Ascii.eqb c "," = false.
Proof.
  intros H. split.
  - destruct (Ascii.eqb_spec c ".") as [->|]; [discriminate|reflexivity].
  - destruct (Ascii.eqb_spec c ",") as [->|]; [discriminate|reflexivity].
Qed.

Lemma digitsOnly_app (s t : string) :
  digitsOnly (s ++ t) = digitsOnly s && digitsOnly t.
Proof.
  induction s as [|c s IH]; [reflexivity|]. cbn. rewrite IH.
  apply andb_assoc.
Qed.

Lemma digitsOnly_zeros (n : nat) : digitsOnly (Js.repeatChar "0" n) = true.
Proof. induction n as [|n IH]; [reflexivity|]. cbn. exact IH. Qed.

Lemma digitsOnly_toString (n : N) : digitsOnly (Js.toString n) = true.
Proof.
  unfold Js.toString. induction (N.to_uint n) as [|d IH|d IH|d IH|d IH|d IH
    |d IH|d IH|d IH|d IH|d IH]; [reflexivity|..]; cbn; exact IH.
Qed.

Lemma digitsOnly_substring (s : string) :
  forall a b, digitsOnly s = true -> digitsOnly (substring a b s) = true.
Proof.
  induction s as [|c s IH]; intros a b H.
  - destruct a; destruct b; reflexivity.
  - cbn in H. apply andb_true_iff in H. destruct H as [Hc Hs].
    destruct a as [|a]; [destruct b as [|b]|]; cbn.
    + reflexivity.
    + rewrite Hc. apply IH. exact Hs.
    + apply IH. exact Hs.
Qed.

Lemma digitsOnly_undot (s : string) : digitsOnly s = true -> undot s = s.
Proof.
  induction s as [|c s IH]; [reflexivity|]. cbn. intros H.
  apply andb_true_iff in H. destruct H as [Hc Hs].
  destruct (digit_is_no_mark c Hc) as [-> _]. rewrite (IH Hs). reflexivity.
Qed.

Lemma digitsOnly_commaFree (s : string) :
  digitsOnly s = true -> commaFree s = true.
Proof.
  induction s as [|c s IH]; [reflexivity|]. cbn. intros H.
  apply andb_true_iff in H. destruct H as [Hc Hs].
  destruct (digit_is_no_mark c Hc) as [_ ->]. exact (IH Hs).
Qed.

Lemma undot_app (s t : string) : undot (s ++ t) = undot s ++ undot t.
Proof.
  induction s as [|c s IH]; [reflexivity|]. cbn.
  destruct (Ascii.eqb c "."); [exact IH|]. cbn. rewrite IH. reflexivity.
Qed.

Lemma commaFree_app (s t : string) :
  commaFree (s ++ t) = commaFree s && commaFree t.
Proof.
  induction s as [|c s IH]; [reflexivity|]. cbn. rewrite IH.
  apply andb_assoc.
Qed.

(** The digits of [fixedDigits]: the padded decimal text of the number. *)
Lemma fixedDigits_parts (n : Z) (f : nat) :
  exists whole fraction,
    fixedDigits n f = whole ++ "." ++ fraction
    /\ digitsOnly whole = true /\ digitsOnly fraction = true
    /\ whole ++ fraction
       = Js.padStart (f + 1) "0" (Js.toString (Z.to_N n)).
Proof.
  unfold fixedDigits.
  set (m := Js.padStart (f + 1) "0" (Js.toString (Z.to_N n))).
  assert (Hm : digitsOnly m = true).
  { unfold m, Js.padStart. rewrite digitsOnly_app, digitsOnly_zeros.
    apply digitsOnly_toString. }
  assert (Hk : (f + 1 <= String.length m)%nat) by apply padStart_length.
  exists (substring 0 (String.length m - f) m),
         (substring (String.length m - f) f m).
  split; [reflexivity|].
  split; [apply digitsOnly_substring; exact Hm|].
  split; [apply digitsOnly_substring; exact Hm|].
  apply substring_split. lia.
Qed.

Lemma uint_of_zeros (j : nat) (s : string) :
  NilEmpty.uint_of_string (Js.repeatChar "0" j ++ s)
  = option_map (Nat.iter j Decimal.D0) (NilEmpty.uint_of_string s).
Proof.
  induction j as [|j IH].
  - cbn. destruct (NilEmpty.uint_of_string s); reflexivity.
  - cbn [Js.repeatChar append NilEmpty.uint_of_string]. rewrite IH.
    destruct (NilEmpty.uint_of_string s); reflexivity.
Qed.

Lemma of_uint_zeros (j : nat) (d : Decimal.uint) :
  N.of_uint (Nat.iter j Decimal.D0 d) = N.of_uint d.
Proof. induction j as [|j IH]; [reflexivity|]. cbn. exact IH. Qed.

(** The digits spell the number. *)
Lemma magnitude_fixedDigits (n : Z) (f : nat) :
  magnitude (fixedDigits n f) = Some (Z.to_N n).
Proof.
  destruct (fixedDigits_parts n f) as (whole & fraction & -> & Hw & Hf & Hm).
  unfold magnitude. rewrite undot_app. cbn [undot append].
  change (Ascii.eqb "." ".") with true. cbn iota.
  rewrite (digitsOnly_undot _ Hw), (digitsOnly_undot _ Hf), Hm.
  unfold Js.padStart. rewrite uint_of_zeros. unfold Js.toString.
  rewrite NilEmpty.usu. cbn [option_map]. rewrite of_uint_zeros.
  rewrite DecimalN.Unsigned.of_to. reflexivity.
Qed.

Lemma fixedDigits_commaFree (n : Z) (f : nat) :
  commaFree (fixedDigits n f) = true.
Proof.
  destruct (fixedDigits_parts n f) as (whole & fraction & -> & Hw & Hf & _).
  rewrite !commaFree_app, (digitsOnly_commaFree _ Hw),
    (digitsOnly_commaFree _ Hf). reflexivity.
Qed.

Lemma toFixed_commaFree (f : nat) (x : R) : commaFree (toFixed f x) = true.
Proof.
  unfold toFixed. destruct (Rlt_dec x 0); [cbn|];
    apply fixedDigits_commaFree.
Qed.

Lemma nearest_nonneg (x : R) (f : nat) : (0 <= x)%R -> (0 <= nearest x f)%Z.
Proof.
  intros Hx. unfold nearest.
  assert (Hp : (0 < 10 ^ f)%R) by (apply pow_lt; lra).
  assert (Hy : (0 <= x * 10 ^ f + / 2)%R) by nra.
  destruct (base_Int_part (x * 10 ^ f + / 2)) as [_ Hlow].
  assert (H : (-1 < IZR (Int_part (x * 10 ^ f + / 2)))%R) by lra.
  apply lt_IZR in H. lia.
Qed.

(** Two numbers with the same [toFixed] text have the same sign and the
    same nearest integer. *)
Lemma toFixed_same (f : nat) (x y : R) :
  toFixed f x = toFixed f y ->
  ((x < 0)%R <-> (y < 0)%R) /\ nearest (Rabs x) f = nearest (Rabs y) f.
Proof.
  intros H.
  assert (Hs : startsWithMinus (toFixed f x) = startsWithMinus (toFixed f y))
    by (rewrite H; reflexivity).
  rewrite (proj2 (toFixed_sign f x)), (proj2 (toFixed_sign f y)) in Hs.
  unfold toFixed in H.
  assert (Hread : forall n n', (0 <= n)%Z -> (0 <= n')%Z ->
                    fixedDigits n f = fixedDigits n' f -> n = n').
  { intros n n' Hn Hn' E.
    assert (Hm : magnitude (fixedDigits n f) = magnitude (fixedDigits n' f))
      by (rewrite E; reflexivity).
    rewrite !magnitude_fixedDigits in Hm. injection Hm as Hm.
    apply (f_equal Z.of_N) in Hm. rewrite !Z2N.id in Hm by assumption.
    exact Hm. }
  destruct (Rlt_dec x 0) as [Hx|Hx]; destruct (Rlt_dec y 0) as [Hy|Hy];
    try discriminate.
  - split; [tauto|]. rewrite !Rabs_left by assumption.
    injection H as H. apply Hread; [apply nearest_nonneg; lra ..|exact H].
  - split; [tauto|]. rewrite !Rabs_right by lra.
    apply Hread; [apply nearest_nonneg; lra ..|exact H].
Qed.

Lemma millionths_nearest (x : R) :
  millionths x = (if Rlt_dec x 0 then true else false, nearest (Rabs x) 6).
Proof.
  unfold millionths, nearest. do 2 f_equal. simpl pow. lra.
Qed.

Lemma parts_of_key (before after : string) :
  commaFree before = true ->
  beforeComma (before ++ "," ++ after) = before
  /\ afterComma (before ++ "," ++ after) = after.
Proof.
  induction before as [|c before IH]; intros H; [split; reflexivity|].
  cbn in H. apply andb_true_iff in H. destruct H as [Hc Hrest].
  apply negb_true_iff in Hc. destruct (IH Hrest) as [Hb Ha].
  change (String c before ++ "," ++ after)
    with (String c (before ++ "," ++ after)).
  cbn [beforeComma afterComma]. rewrite Hc, Hb, Ha. split; reflexivity.
Qed.

End KeyTexts.

Section JunctionTheorems.

Import Arc Cable Junctions JunctionSpec JunctionTrace JunctionWording.
Local Open Scope string_scope.

(** C2.  When every cable has one of the three statuses, the status the
    incremental fold leaves at a junction key is the worst status among the
    cables with a coordinate at that key: down if any is down, otherwise
    warning if any is warning, otherwise operational; and processing the
    cables in any other order leaves the same status. *)
Theorem junction_status_is_worst (fs : list Feature) (k : string) :
  Forall (fun line => isCableStatus (Cable.status line)) fs ->
  group k fs <> [] ->
  statusAt k fs = Some (worst (statuses k fs))
  /\ (In "down" (statuses k fs) -> statusAt k fs = Some "down")
  /\ (~ In "down" (statuses k fs) -> In "warning" (statuses k fs) ->
      statusAt k fs = Some "warning")
  /\ (~ In "down" (statuses k fs) -> ~ In "warning" (statuses k fs) ->
      statusAt k fs = Some "operational")
  /\ (forall fs', Permutation fs fs' -> statusAt k fs' = statusAt k fs).
Proof.
  intros Hall Hne.
  assert (Hw : forall gs, Forall (fun line => isCableStatus (Cable.status line)) gs ->
                          group k gs <> [] ->
                          statusAt k gs = Some (worst (statuses k gs))).
  { intros gs Hgs Hg. rewrite statusAt_group by exact Hg. f_equal.
    apply aggregate_worst.
    - apply statuses_nonempty. exact Hg.
    - apply statuses_cable_status. exact Hgs. }
  assert (Hno : forall s l, ~ In s l -> existsb (String.eqb s) l = false).
  { intros s l Hs. destruct (existsb (String.eqb s) l) eqn:E; [|reflexivity].
    apply existsb_In in E. contradiction. }
  pose proof (Hw fs Hall Hne) as Hs.
  split; [exact Hs|].
  split.
  { intros Hd. rewrite Hs. unfold worst.
    rewrite (proj2 (existsb_In _ _) Hd). reflexivity. }
  split.
  { intros Hd Hwn. rewrite Hs. unfold worst.
    rewrite (Hno _ _ Hd), (proj2 (existsb_In _ _) Hwn). reflexivity. }
  split.
  { intros Hd Hwn. rewrite Hs. unfold worst.
    rewrite (Hno _ _ Hd), (Hno _ _ Hwn). reflexivity. }
  intros fs' Hp.
  assert (Hm : forall s, In s (statuses k fs') <-> In s (statuses k fs)).
  { intros s. symmetry. apply statuses_permutation. exact Hp. }
  assert (Hne' : group k fs' <> []).
  { apply statuses_nonempty. apply statuses_nonempty in Hne.
    destruct (statuses k fs) as [|s0 r]; [congruence|].
    intros E. rewrite E in Hm. apply (Hm s0). left. reflexivity. }
  rewrite (Hw fs' (Permutation_Forall Hp Hall) Hne'), Hs. f_equal.
  apply worst_membership. exact Hm.
Qed.

Lemma flat_map_agree {A B} (f g : A -> list B) (l : list A) :
  (forall a, In a l -> f a = g a) -> flat_map f l = flat_map g l.
Proof.
  intros H. induction l as [|a l IH]; [reflexivity|]. cbn.
  rewrite (H a (or_introl eq_refl)), IH; [reflexivity|].
  intros b Hb. apply H. right. exact Hb.
Qed.

(** With distinct keys, walking the entries is walking the keys and
    looking each one up. *)
Lemma entries_by_key (m : JMap) :
  NoDup (map fst m) ->
  flat_map arcOf m
  = flat_map (fun k => match get k m with
                       | Some j => arcOf (k, j)
                       | None => []
                       end) (map fst m).
Proof.
  induction m as [|[k j] m IH]; intros Hnd; [reflexivity|].
  inversion Hnd as [|? ? Hk Hnd']; subst.
  cbn [flat_map map fst get]. rewrite String.eqb_refl. f_equal.
  rewrite (IH Hnd'). apply flat_map_agree.
  intros k' Hk'. destruct (String.eqb_spec k' k) as [->|Hne];
    [contradiction|reflexivity].
Qed.

Lemma arcOf_group (fs : list Feature) (k : string) :
  match junctionOf (group k fs) with
  | Some j => arcOf (k, j)
  | None => []
  end = glowOf fs k.
Proof.
  unfold glowOf, connectionCount, statuses.
  destruct (group k fs) as [|first rest]; [reflexivity|].
  unfold junctionOf, arcOf.
  cbn [snd count Junctions.status position color].
  destruct ((1 <? List.length (first :: rest))%nat
            && negb (aggregate (map fst (first :: rest)) =? "down"));
    [|reflexivity].
  rewrite (Rmult_comm (INR (List.length (first :: rest))) 0.1). reflexivity.
Qed.

Lemma getElectricalArcs_features (fs : list Feature) :
  getElectricalArcs
    (Some {| hierarchical_power_cables := Some {| features := Some fs |} |})
  = computeJunctions fs.
Proof.
  unfold getElectricalArcs, computeJunctions. cbn [hierarchical_power_cables features].
  rewrite entries_by_key
    by (rewrite keys_junctionPoints; apply distinct_NoDup).
  rewrite keys_junctionPoints. apply flat_map_agree. intros k _.
  rewrite get_junctionPoints_group. apply arcOf_group.
Qed.

Lemma toFixed_millionths (x y : R) :
  toFixed 6 x = toFixed 6 y <-> millionths x = millionths y.
Proof.
  rewrite !millionths_nearest. split.
  - intros H. destruct (@toFixed_same 6 x y H) as [Hs Hn]. rewrite Hn.
    destruct (Rlt_dec x 0); destruct (Rlt_dec y 0); try reflexivity; tauto.
  - intros H. unfold toFixed.
    assert (Hn : nearest (Rabs x) 6 = nearest (Rabs y) 6) by congruence.
    destruct (Rlt_dec x 0) as [Hx|Hx]; destruct (Rlt_dec y 0) as [Hy|Hy];
      try discriminate.
    + rewrite !Rabs_left in Hn by assumption. rewrite Hn. reflexivity.
    + rewrite !Rabs_right in Hn by lra. rewrite Hn. reflexivity.
Qed.

(** Two coordinates share a key exactly when they agree, on each axis, in
    sign and in the number of millionths. *)
Lemma junctionKey_millionths (coord coord' : Point) :
  junctionKey coord = junctionKey coord'
  <-> millionths (px coord) = millionths (px coord')
      /\ millionths (py coord) = millionths (py coord').
Proof.
  unfold junctionKey. rewrite <- !toFixed_millionths. split.
  - intros H.
    destruct (@parts_of_key (toFixed 6 (px coord)) (toFixed 6 (py coord))
                (toFixed_commaFree _ _)) as [Hb Ha].
    destruct (@parts_of_key (toFixed 6 (px coord')) (toFixed 6 (py coord'))
                (toFixed_commaFree _ _)) as [Hb' Ha'].
    rewrite H in Hb, Ha. rewrite Hb' in Hb. rewrite Ha' in Ha.
    split; congruence.
  - intros [-> ->]. reflexivity.
Qed.

Lemma length_filter_flat_map {A B} (f : B -> bool) (g : A -> list B)
    (l : list A) :
  List.length (filter f (flat_map g l))
  = list_sum (map (fun a => List.length (filter f (g a))) l).
Proof.
  induction l as [|a l IH]; [reflexivity|].
  cbn [flat_map map list_sum]. rewrite filter_app, length_app, IH.
  reflexivity.
Qed.

Lemma length_filter_visits (k st : string) (cs : list Point) :
  List.length (filter (fun v : Visit => keyOf v =? k) (map (pair st) cs))
  = List.length (filter (fun coord => junctionKey coord =? k) cs).
Proof.
  induction cs as [|c cs IH]; [reflexivity|].
  cbn [map filter]. unfold keyOf at 1. cbn [snd].
  destruct (junctionKey c =? k); cbn [List.length]; rewrite IH; reflexivity.
Qed.

(** The count of a group is the number of coordinates with its key, the
    cables taken one after the other. *)
Lemma connectionCount_passes (k : string) (fs : list Feature) :
  connectionCount k fs = list_sum (map (passes k) fs).
Proof.
  unfold connectionCount, group, visits, passes.
  rewrite length_filter_flat_map. f_equal. apply map_ext.
  intros line. apply length_filter_visits.
Qed.

(** C6.  The key of a coordinate is [x.toFixed(6)], a comma and
    [y.toFixed(6)], so two coordinates share a key exactly when they
    agree, on each axis, in sign and in the number of millionths nearest
    to the magnitude.  The groups are made of every
    coordinate of every cable, interior waypoints as well as ends: the
    count of a key is the number of coordinates with that key, a cable
    counting once for each, and the statuses of a group are those of the
    cables with a coordinate at the key.  The glow points are those of the
    groups, one per key and in the order of first occurrence: a group
    emits a point exactly when it has more than one member and its
    aggregate status is not down (that is, none of its cables is down),
    and the intensity of the point is [min (0.2 + 0.1 * count) 0.8]. *)
Theorem glow_points_are_qualifying_groups (fs : list Feature) :
  (forall coord,
     junctionKey coord = toFixed 6 (px coord) ++ "," ++ toFixed 6 (py coord))
  /\ (forall coord coord',
        junctionKey coord = junctionKey coord'
        <-> millionths (px coord) = millionths (px coord')
            /\ millionths (py coord) = millionths (py coord'))
  /\ (forall k, connectionCount k fs = list_sum (map (passes k) fs))
  /\ (forall k s,
        In s (statuses k fs)
        <-> exists line coord,
              In line fs /\ Cable.status line = s
              /\ In coord (coordinates line) /\ junctionKey coord = k)
  /\ getElectricalArcs
       (Some {| hierarchical_power_cables := Some {| features := Some fs |} |})
     = flat_map (glowOf fs) (keys fs)
  /\ NoDup (keys fs)
  /\ (forall k, In k (keys fs) <-> group k fs <> [])
  /\ (forall k, group k fs <> [] ->
        option_map count (get k (junctionPoints fs))
        = Some (connectionCount k fs)
        /\ statusAt k fs = Some (aggregate (statuses k fs))
        /\ (aggregate (statuses k fs) = "down" <-> In "down" (statuses k fs)))
  /\ (forall k a, In a (glowOf fs k) ->
        glowOf fs k = [a]
        /\ (1 < connectionCount k fs)%nat
        /\ statusAt k fs <> Some "down"
        /\ ElectricalArc.intensity a
           = Rmin (0.2 + 0.1 * INR (connectionCount k fs)) 0.8)
  /\ (forall k, (1 < connectionCount k fs)%nat ->
                statusAt k fs <> Some "down" ->
                exists a, glowOf fs k = [a]).
Proof.
  split; [intros coord; reflexivity|].
  split; [apply junctionKey_millionths|].
  split; [intros k; apply connectionCount_passes|].
  split; [intros k s; apply in_statuses|].
  split; [apply getElectricalArcs_features|].
  split; [apply distinct_NoDup|].
  split; [intros k; apply keys_In|].
  split.
  { intros k Hne. split; [|split].
    - rewrite get_junctionPoints_group. unfold connectionCount.
      destruct (group k fs); [congruence|reflexivity].
    - apply statusAt_group. exact Hne.
    - apply aggregate_down. apply statuses_nonempty. exact Hne. }
  split.
  { intros k a Ha. unfold glowOf in *.
    destruct (group k fs) as [|first rest] eqn:Hg; [destruct Ha|].
    assert (Hne : group k fs <> []) by (rewrite Hg; discriminate).
    destruct ((1 <? connectionCount k fs)%nat) eqn:Hc; [|destruct Ha].
    destruct (String.eqb_spec (aggregate (statuses k fs)) "down") as [Hd|Hd];
      [destruct Ha|].
    cbn [andb negb] in *. destruct Ha as [<-|[]].
    split; [reflexivity|]. split; [apply Nat.ltb_lt; exact Hc|].
    split; [|reflexivity].
    rewrite statusAt_group by exact Hne. congruence. }
  intros k Hc Hs. unfold glowOf.
  assert (Hne : group k fs <> []).
  { unfold connectionCount in Hc. destruct (group k fs); [cbn in Hc; lia|discriminate]. }
  rewrite statusAt_group in Hs by exact Hne.
  destruct (group k fs) as [|first rest]; [congruence|].
  apply Nat.ltb_lt in Hc. rewrite Hc.
  destruct (String.eqb_spec (aggregate (statuses k fs)) "down") as [Hd|Hd];
    [congruence|].
  cbn [andb negb]. eexists. reflexivity.
Qed.

End JunctionTheorems.

(** ** Junction keys and a worked junction *)

Section JunctionExamples.

Import Arc Cable Junctions JunctionSpec JunctionTrace JunctionWording.
Local Open Scope R_scope.

Lemma toFixed_nonneg (f : nat) (x : R) (n : Z) :
  0 <= x -> IZR n <= x * 10 ^ f + / 2 < IZR n + 1 ->
  toFixed f x = fixedDigits n f.
Proof.
  intros Hx [Hlo Hhi]. unfold toFixed, nearest.
  destruct (Rlt_dec x 0); [lra|].
  f_equal. symmetry. apply Int_part_spec. lra.
Qed.

Lemma toFixed_negative (f : nat) (x : R) (n : Z) :
  x < 0 -> IZR n <= - x * 10 ^ f + / 2 < IZR n + 1 ->
  toFixed f x = ("-" ++ fixedDigits n f)%string.
Proof.
  intros Hx [Hlo Hhi]. unfold toFixed, nearest.
  destruct (Rlt_dec x 0); [|lra].
  f_equal. f_equal. symmetry. apply Int_part_spec. lra.
Qed.

Ltac fixed n :=
  first [ rewrite (@toFixed_nonneg 6 _ n) by (simpl pow; lra)
        | rewrite (@toFixed_negative 6 _ n) by (simpl pow; lra) ].

(** Endpoints that differ past the sixth decimal share a key. *)
Lemma near_identical_endpoints_share_a_key :
  junctionKey hub = hubKey
  /\ junctionKey (P2 147.3521004 (-35.1276002)) = hubKey
  /\ junctionKey (P2 147.352101 (-35.1276)) = "147.352101,-35.127600"%string.
Proof.
  unfold junctionKey, hub, hubKey. cbn [px py]. repeat split.
  - fixed 147352100%Z. fixed 35127600%Z. reflexivity.
  - fixed 147352100%Z. fixed 35127600%Z. reflexivity.
  - fixed 147352101%Z. fixed 35127600%Z. reflexivity.
Qed.

Lemma far_end_keys :
  junctionKey (P2 147.36 (-35.13)) = "147.360000,-35.130000"%string
  /\ junctionKey (P2 147.34 (-35.12)) = "147.340000,-35.120000"%string
  /\ junctionKey (P2 147.35 (-35.14)) = "147.350000,-35.140000"%string
  /\ junctionKey (P2 147.37 (-35.11)) = "147.370000,-35.110000"%string.
Proof.
  unfold junctionKey. cbn [px py]. repeat split.
  - fixed 147360000%Z. fixed 35130000%Z. reflexivity.
  - fixed 147340000%Z. fixed 35120000%Z. reflexivity.
  - fixed 147350000%Z. fixed 35140000%Z. reflexivity.
  - fixed 147370000%Z. fixed 35110000%Z. reflexivity.
Qed.

Ltac example_keys :=
  let K1 := fresh in let K2 := fresh in let K3 := fresh in
  let K4 := fresh in let K5 := fresh in let K6 := fresh in
  destruct far_end_keys as (K1 & K2 & K3 & K4);
  destruct near_identical_endpoints_share_a_key as (K5 & K6 & _);
  unfold hub in K5;
  cbv [feederA feederB feederC feederD cableTo hub visits flat_map map app
       coordinates Cable.status keyOf snd fst];
  cbn [filter]; cbv [keyOf snd fst];
  rewrite ?K1, ?K2, ?K3, ?K4, ?K5, ?K6.

Lemma hub_statuses :
  statuses hubKey [feederA; feederB; feederC]
  = ["operational"; "warning"; "operational"]%string
  /\ statuses hubKey [feederD; feederA; feederB; feederC]
     = ["down"; "operational"; "warning"; "operational"]%string.
Proof.
  unfold statuses, group. split; example_keys; reflexivity.
Qed.

Lemma feeders_have_cable_statuses :
  Forall (fun line => isCableStatus (Cable.status line))
         [feederD; feederA; feederB; feederC].
Proof.
  unfold isCableStatus. repeat constructor; cbn; tauto.
Qed.

Lemma hub_group_nonempty (fs : list Feature) (s : string) (rest : list string) :
  statuses hubKey fs = s :: rest -> group hubKey fs <> [].
Proof.
  intros H. apply statuses_nonempty. rewrite H. discriminate.
Qed.

(** Statuses operational, warning, operational meet at the hub: warning;
    with a down cable added the hub is down, wherever the down cable is
    inserted. *)
Lemma hub_status_examples :
  statusAt hubKey [feederA; feederB; feederC] = Some "warning"%string
  /\ statusAt hubKey [feederD; feederA; feederB; feederC] = Some "down"%string
  /\ (forall fs, Permutation [feederD; feederA; feederB; feederC] fs ->
                 statusAt hubKey fs = Some "down"%string).
Proof.
  destruct hub_statuses as [H3 H4].
  pose proof feeders_have_cable_statuses as Hall.
  destruct (@junction_status_is_worst _ hubKey
              (Forall_inv_tail Hall) (hub_group_nonempty _ H3))
    as (Hs3 & _).
  destruct (@junction_status_is_worst _ hubKey
              Hall (hub_group_nonempty _ H4))
    as (Hs4 & _ & _ & _ & Hperm).
  rewrite H3 in Hs3. rewrite H4 in Hs4.
  split; [exact Hs3|]. split; [exact Hs4|].
  intros fs Hp. rewrite (Hperm fs Hp). exact Hs4.
Defined.

(** The hub with three live cables glows with intensity 0.5; the far ends,
    with a single connection each, do not; and a down cable at the hub
    removes the glow. *)
Lemma hub_glow_examples :
  map ElectricalArc.intensity
      (getElectricalArcs
         (Some {| hierarchical_power_cables :=
                    Some {| features := Some [feederA; feederB; feederC] |} |}))
  = [0.5]
  /\ getElectricalArcs
       (Some {| hierarchical_power_cables :=
                  Some {| features :=
                            Some [feederD; feederA; feederB; feederC] |} |})
     = [].
Proof.
  split.
  - rewrite getElectricalArcs_features.
    unfold computeJunctions, keys, glowOf, connectionCount, statuses, group.
    example_keys. cbn. f_equal. unfold Rmin.
    destruct (Rle_dec (0.2 + 0.1 * (1 + 1 + 1)) 0.8); lra.
  - rewrite getElectricalArcs_features.
    unfold computeJunctions, keys, glowOf, connectionCount, statuses, group.
    example_keys. reflexivity.
Qed.

Lemma hub_passes :
  map (passes hubKey) [feederA; feederB; feederC] = [1; 1; 1]%nat.
Proof.
  unfold passes. example_keys. reflexivity.
Qed.

Lemma millionths_nonneg (x : R) (n : Z) :
  0 <= x -> IZR n <= x * 1000000 + / 2 < IZR n + 1 ->
  millionths x = (false, n).
Proof.
  intros Hx [Hlo Hhi]. unfold millionths.
  destruct (Rlt_dec x 0); [lra|]. rewrite Rabs_right by lra.
  f_equal. symmetry. apply Int_part_spec. lra.
Qed.

Lemma millionths_negative (x : R) (n : Z) :
  x < 0 -> IZR n <= - x * 1000000 + / 2 < IZR n + 1 ->
  millionths x = (true, n).
Proof.
  intros Hx [Hlo Hhi]. unfold millionths.
  destruct (Rlt_dec x 0); [|lra]. rewrite Rabs_left by lra.
  f_equal. symmetry. apply Int_part_spec. lra.
Qed.

(** The key of the hub shows six decimals, and the three cables that end
    there make a group of three; a point that differs from the hub in the
    seventh decimal has the key of the hub, one that differs in the sixth
    has not. *)
Lemma hub_glows_as_a_group :
  junctionKey hub = hubKey
  /\ connectionCount hubKey [feederA; feederB; feederC] = 3%nat
  /\ getElectricalArcs
       (Some {| hierarchical_power_cables :=
                  Some {| features := Some [feederA; feederB; feederC] |} |})
     = flat_map (glowOf [feederA; feederB; feederC])
                (keys [feederA; feederB; feederC])
  /\ junctionKey (P2 147.3521004 (-35.1276002)) = junctionKey hub
  /\ junctionKey (P2 147.352101 (-35.1276)) <> junctionKey hub.
Proof.
  destruct (glow_points_are_qualifying_groups [feederA; feederB; feederC])
    as (Hkey & Hsame & Hcount & _ & Harcs & _).
  assert (Hx : millionths 147.3521 = (false, 147352100%Z))
    by (apply millionths_nonneg; lra).
  assert (Hy : millionths (-35.1276) = (true, 35127600%Z))
    by (apply millionths_negative; lra).
  split.
  { rewrite Hkey. unfold hub, hubKey. cbn [px py].
    fixed 147352100%Z. fixed 35127600%Z. reflexivity. }
  split; [rewrite Hcount, hub_passes; reflexivity|].
  split; [exact Harcs|]. split.
  - apply Hsame. unfold hub. cbn [px py]. rewrite Hx, Hy. split.
    + apply millionths_nonneg; lra.
    + apply millionths_negative; lra.
  - intros E. apply Hsame in E. destruct E as [E _].
    unfold hub in E. cbn [px py] in E. rewrite Hx in E.
    rewrite (@millionths_nonneg 147.352101 147352101%Z) in E by lra.
    discriminate.
Defined.

Lemma crossing_keys :
  junctionKey (P2 0 0) = "0.000000,0.000000"%string
  /\ junctionKey (P2 1 1) = "1.000000,1.000000"%string
  /\ junctionKey (P2 2 2) = "2.000000,2.000000"%string
  /\ junctionKey (P2 0 2) = "0.000000,2.000000"%string
  /\ junctionKey (P2 2 0) = "2.000000,0.000000"%string.
Proof.
  unfold junctionKey. cbn [px py].
  rewrite (@toFixed_nonneg 6 0 0%Z) by (simpl pow; lra).
  rewrite (@toFixed_nonneg 6 1 1000000%Z) by (simpl pow; lra).
  rewrite (@toFixed_nonneg 6 2 2000000%Z) by (simpl pow; lra).
  repeat split; reflexivity.
Qed.

Ltac crossing_example :=
  let K1 := fresh in let K2 := fresh in let K3 := fresh in
  let K4 := fresh in let K5 := fresh in
  destruct crossing_keys as (K1 & K2 & K3 & K4 & K5);
  cbv [crossingA crossingB visits endpointVisits endpoints last flat_map map
       app coordinates Cable.status keyOf snd fst];
  cbn [filter]; cbv [keyOf snd fst];
  rewrite ?K1, ?K2, ?K3, ?K4, ?K5.

(** Two live cables cross at the waypoint in the middle of each.  The map
    counts that waypoint twice and a glow point is emitted there, although
    it is the end of no cable: the four ends have four different keys, so
    no group of endpoints has more than one member. *)
Lemma glow_at_an_interior_waypoint :
  getElectricalArcs
    (Some {| hierarchical_power_cables :=
               Some {| features := Some [crossingA; crossingB] |} |})
  = [{| ElectricalArc.position := P3 1 1 500;
        ElectricalArc.intensity := Rmin (0.2 + 0.1 * INR 2) 0.8;
        ElectricalArc.color := [0; 255; 0]%Z |}]
  /\ map snd (endpointVisits [crossingA; crossingB])
     = [P2 0 0; P2 2 2; P2 0 2; P2 2 0]
  /\ map keyOf (endpointVisits [crossingA; crossingB])
     = ["0.000000,0.000000"; "2.000000,2.000000";
        "0.000000,2.000000"; "2.000000,0.000000"]%string
  /\ junctionKey (P2 1 1) = "1.000000,1.000000"%string
  /\ glowAtEndpoints [crossingA; crossingB] = [].
Proof.
  split; [|split; [|split; [|split]]].
  - rewrite getElectricalArcs_features.
    unfold computeJunctions, keys, glowOf, connectionCount, statuses, group.
    crossing_example. reflexivity.
  - reflexivity.
  - crossing_example. reflexivity.
  - apply crossing_keys.
  - unfold glowAtEndpoints, endpointGlow, endpointGroup.
    crossing_example. reflexivity.
Qed.

End JunctionExamples.

(** * Further properties of the code *)

(** ** The controller over whole sessions *)

Section TimelineSessions.

Import Timeline TimelineRun.
Local Open Scope Z_scope.








End TimelineSessions.

Section TimelinePlayback.

Import Timeline TimelineRun.
Local Open Scope Z_scope.

Lemma ticks_idle (n : nat) (st : State) :
  playInterval st = None -> ticks n st = st.
Proof.
  intros Hnone. induction n as [|n IH]; [reflexivity|].
  change (ticks (S n) st) with (tick (ticks n st)).
  rewrite IH. unfold tick. rewrite Hnone. reflexivity.
Qed.

Lemma state_eqb_refl (st : State) : state_eqb st st = true.
Proof.
  unfold state_eqb, interval_eqb.
  rewrite Bool.eqb_reflx, Z.eqb_refl.
  destruct (playInterval st); [rewrite !Z.eqb_refl|]; reflexivity.
Qed.

Lemma successor_differs (c m : Z) : 0 <= c < m -> 1 < m -> (c + 1) mod m <> c.
Proof.
  intros Hc Hm Heq.
  destruct (Z.eq_dec (c + 1) m) as [E|E].
  - rewrite E, Z.mod_same in Heq by lia. lia.
  - rewrite Z.mod_small in Heq by lia. lia.
Qed.

(** X2.  Pausing keeps the place: after play, [n] firings of the interval
    and a second press of the button, the controller is idle at index
    [(i + n) mod L], holds no interval, and no later firing moves it. *)
Theorem pause_keeps_the_reached_index (p : Props) (st : State) (n m : nat) :
  isPlaying st = false ->
  0 <= currentTimestep st < len p ->
  let paused := handlePlay p (ticks n (handlePlay p st)) in
  isPlaying paused = false
  /\ playInterval paused = None
  /\ currentTimestep paused = (currentTimestep st + Z.of_nat n) mod len p
  /\ ticks m paused = paused.
Proof.
  intros Hidle Hrange paused.
  pose proof (timesteps_nonempty p) as Hlen.
  set (playing := handlePlay p st).
  assert (Hiv : playInterval playing
                = Some {| delay := 1000; modulus := len p |})
    by (unfold playing, handlePlay; rewrite Hidle; reflexivity).
  assert (Hcur : currentTimestep playing = currentTimestep st)
    by (unfold playing, handlePlay; rewrite Hidle; reflexivity).
  assert (Hplay : isPlaying playing = true)
    by (unfold playing, handlePlay; rewrite Hidle; reflexivity).
  assert (Hr : 0 <= currentTimestep playing < len p) by (rewrite Hcur; lia).
  destruct (ticks_live n playing Hlen Hiv Hr) as (_ & Hp & Hi).
  assert (Hpaused : paused = pause (ticks n playing)).
  { unfold paused, handlePlay at 1. fold playing. rewrite Hp, Hplay.
    reflexivity. }
  assert (Hnone : playInterval paused = None).
  { rewrite Hpaused. unfold pause. cbn.
    destruct (playInterval (ticks n playing)); reflexivity. }
  split; [rewrite Hpaused; reflexivity|].
  split; [exact Hnone|].
  split; [rewrite Hpaused; cbn; rewrite Hi, Hcur; reflexivity|].
  apply ticks_idle. exact Hnone.
Qed.

Lemma pause_after_four_of_five :
  currentTimestep (handlePlay fiveSteps (ticks 4 (handlePlay fiveSteps (idleAt 3))))
  = 2
  /\ ticks 3 (handlePlay fiveSteps (ticks 4 (handlePlay fiveSteps (idleAt 3))))
     = handlePlay fiveSteps (ticks 4 (handlePlay fiveSteps (idleAt 3))).
Proof.
  assert (Hr : 0 <= currentTimestep (idleAt 3) < len fiveSteps)
    by (change (0 <= 3 < 5); lia).
  destruct (pause_keeps_the_reached_index fiveSteps (idleAt 3) 4 3 eq_refl Hr)
    as (_ & _ & Hi & Hm).
  split; [exact Hi|exact Hm].
Defined.

(** X3.  While the interval is live, a firing moves the index to its
    successor modulo the length and the listener receives exactly the
    timestep at the new index, provided the sequence has more than one
    entry; with a single entry the firing leaves the state as it is and
    the listener receives nothing. *)
Theorem firing_notifies_unless_single (p : Props) (st : State) :
  onTimestepChange p = true ->
  playInterval st = Some {| delay := 1000; modulus := len p |} ->
  0 <= currentTimestep st < len p ->
  (1 < len p ->
   exists t,
     Js.index (timesteps p) ((currentTimestep st + 1) mod len p) = Some t
     /\ currentTimestep (tick st) = (currentTimestep st + 1) mod len p
     /\ emitted p st (tick st) = [t])
  /\ (len p = 1 -> tick st = st /\ emitted p st (tick st) = []).
Proof.
  intros Hl Hiv Hrange.
  assert (Hcur : currentTimestep (tick st)
                 = (currentTimestep st + 1) mod len p).
  { unfold tick. rewrite Hiv. cbn [setIndex currentTimestep modulus].
    apply rem_step; lia. }
  split.
  - intros Hlen.
    assert (Hnew : 0 <= (currentTimestep st + 1) mod len p < len p)
      by (apply Z.mod_pos_bound; lia).
    destruct (index_in_range (timesteps p) Hnew) as (t & _ & Ht).
    exists t. split; [exact Ht|]. split; [exact Hcur|].
    rewrite emitted_on_index_change.
    + unfold notifyEffect, currentEntry. rewrite Hl, Hcur, Ht. reflexivity.
    + rewrite Hcur. intros E. symmetry in E. revert E.
      apply successor_differs; lia.
  - intros Hone.
    assert (Hsame : tick st = st).
    { unfold tick. rewrite Hiv. cbn [modulus]. rewrite rem_step by lia.
      rewrite Hone, Z.mod_1_r. destruct st as [pl c iv]. cbn in *.
      unfold setIndex. cbn. f_equal. lia. }
    split; [exact Hsame|]. rewrite Hsame. unfold emitted.
    rewrite state_eqb_refl. reflexivity.
Qed.

Lemma firing_examples :
  emitted threeSteps (playingAt 3 2) (tick (playingAt 3 2)) = [defaultEntry 0 0]
  /\ tick (playingAt 1 0) = playingAt 1 0
  /\ emitted oneStep (playingAt 1 0) (tick (playingAt 1 0)) = [].
Proof.
  destruct (@firing_notifies_unless_single threeSteps (playingAt 3 2)
              eq_refl eq_refl) as [Hmany _]; [change (0 <= 2 < 3); lia|].
  destruct (@firing_notifies_unless_single oneStep (playingAt 1 0)
              eq_refl eq_refl) as [_ Hone]; [change (0 <= 0 < 1); lia|].
  destruct Hmany as (t & Ht & _ & He); [change (1 < 3); lia|].
  destruct (Hone eq_refl) as [Hs Hn].
  split; [|split; assumption].
  rewrite He. f_equal. change (Some (defaultEntry 0 0) = Some t) in Ht.
  congruence.
Defined.

(** X4.  The interval wraps at the length it was started with.  When a
    non-empty sequence replaces the played one during playback, the index
    goes back to 0 but the firings keep counting modulo the old length
    [L]: after [n] of them the index is [n mod L], and whenever that value
    is not an index of the new sequence there is no current timestep and
    the label shows ["00:00"]. *)
Theorem replaced_sequence_wraps_at_old_length
    (p p' : Props) (st : State) (n : nat) :
  isPlaying st = false ->
  availableTimesteps p' <> [] ->
  let swapped := resetEffect p' (handlePlay p st) in
  currentTimestep swapped = 0
  /\ isPlaying (ticks n swapped) = true
  /\ currentTimestep (ticks n swapped) = Z.of_nat n mod len p
  /\ (len p' <= Z.of_nat n mod len p ->
      currentEntry p' (ticks n swapped) = None
      /\ currentLabel p' (ticks n swapped) = "00:00"%string).
Proof.
  intros Hidle Hne swapped.
  pose proof (timesteps_nonempty p) as Hlen.
  assert (Hsw : swapped = setIndex (handlePlay p st) 0).
  { unfold swapped, resetEffect.
    destruct (availableTimesteps p'); [congruence|reflexivity]. }
  assert (Hiv : playInterval swapped
                = Some {| delay := 1000; modulus := len p |})
    by (rewrite Hsw; unfold handlePlay; rewrite Hidle; reflexivity).
  assert (Hplay : isPlaying swapped = true)
    by (rewrite Hsw; unfold handlePlay; rewrite Hidle; reflexivity).
  assert (Hcur : currentTimestep swapped = 0) by (rewrite Hsw; reflexivity).
  assert (Hr : 0 <= currentTimestep swapped < len p) by (rewrite Hcur; lia).
  destruct (ticks_live n swapped Hlen Hiv Hr) as (_ & Hp & Hi).
  rewrite Hcur, Z.add_0_l in Hi.
  split; [exact Hcur|]. split; [rewrite Hp; exact Hplay|].
  split; [exact Hi|].
  intros Hout.
  assert (He : currentEntry p' (ticks n swapped) = None).
  { unfold currentEntry. rewrite Hi. apply index_out_of_range.
    fold (len p'). lia. }
  split; [exact He|]. unfold currentLabel. rewrite He. reflexivity.
Qed.

Lemma defaults_replaced_by_three :
  currentTimestep
    (ticks 5 (resetEffect threeSteps (handlePlay noSteps (idleAt 7)))) = 5
  /\ currentEntry threeSteps
       (ticks 5 (resetEffect threeSteps (handlePlay noSteps (idleAt 7))))
     = None.
Proof.
  assert (Hne : availableTimesteps threeSteps <> []) by discriminate.
  destruct (@replaced_sequence_wraps_at_old_length noSteps threeSteps
              (idleAt 7) 5 eq_refl Hne) as (_ & _ & Hi & Hout).
  split; [exact Hi|]. apply Hout. change (3 <= 5 mod 48). cbn. lia.
Defined.

End TimelinePlayback.

(** ** The animation frame and the layer switches *)

Section FrameAndVisibility.

Import Cable Particles Visuals.

(** X5.  The frame counter runs through one cycle of 360 frames: after
    [n + 1] firings from any value [f] it is [(f + n + 1) mod 360], so it is
    below 360 from the first firing on and repeats with period 360. *)
Theorem animation_frame_cycles (f n : nat) :
  Nat.iter (S n) animate f = ((f + S n) mod 360)%nat
  /\ (Nat.iter (S n) animate f < 360)%nat
  /\ Nat.iter (S n + 360) animate f = Nat.iter (S n) animate f.
Proof.
  assert (H : forall k, Nat.iter (S k) animate f = ((f + S k) mod 360)%nat).
  { induction k as [|k IH].
    - cbn [Nat.iter]. unfold animate. reflexivity.
    - change (Nat.iter (S (S k)) animate f)
        with (animate (Nat.iter (S k) animate f)).
      rewrite IH. unfold animate.
      rewrite Nat.Div0.add_mod_idemp_l. f_equal. lia. }
  split; [apply H|].
  split; [rewrite H; apply Nat.mod_upper_bound; discriminate|].
  change (S n + 360)%nat with (S (n + 360)). rewrite !H.
  replace (f + S (n + 360))%nat with (f + S n + 1 * 360)%nat by lia.
  apply Nat.Div0.mod_add.
Qed.

(** X6.  Switching a layer other than the power layer never changes the
    particle set the refresh effect produces; switching the power layer
    off empties it, and switching it on produces the particles of the
    current cable collection (none when there is no data).  The other
    five switches keep their values when the power layer is switched. *)
Theorem layer_switch_and_particles
    (st : RootState) (layerName : string) (isVisible : bool) :
  let switched :=
    setLayerVisibility st
      (handleVisibilityChange layerName isVisible (layerVisibility st)) in
  (layerName <> "power"%string ->
   powerParticles (updateParticlesEffect switched)
   = powerParticles (updateParticlesEffect st))
  /\ (layerName = "power"%string -> isVisible = false ->
      powerParticles (updateParticlesEffect switched) = [])
  /\ (layerName = "power"%string -> isVisible = true ->
      powerParticles (updateParticlesEffect switched)
      = match infrastructureData st with
        | Some data => generateParticles (hierarchical_power_cables data)
        | None => []
        end)
  /\ (layerName = "power"%string ->
      let lv := layerVisibility switched in
      let old := layerVisibility st in
      prec lv = prec old /\ rfcst lv = rfcst old /\ tower lv = tower old
      /\ flood lv = flood old /\ infrastructure lv = infrastructure old).
Proof.
  intros switched.
  assert (Heff : forall s,
             powerParticles (updateParticlesEffect s)
             = match infrastructureData s with
               | Some data =>
                   if power (layerVisibility s)
                   then generateParticles (hierarchical_power_cables data)
                   else []
               | None => []
               end).
  { intros s. unfold updateParticlesEffect.
    destruct (infrastructureData s) as [data|]; [|reflexivity].
    destruct (hierarchical_power_cables data) as [cables|];
      [|destruct (power (layerVisibility s)); reflexivity].
    destruct (power (layerVisibility s)); reflexivity. }
  rewrite !Heff. unfold switched.
  cbn [setLayerVisibility infrastructureData layerVisibility
       handleVisibilityChange power prec rfcst tower flood infrastructure].
  split.
  { intros Hne. destruct (String.eqb_spec layerName "power");
      [contradiction|reflexivity]. }
  split.
  { intros -> ->. cbn. destruct (infrastructureData st); reflexivity. }
  split.
  { intros -> ->. cbn. reflexivity. }
  intros ->. cbn. repeat split.
Qed.

End FrameAndVisibility.

(** ** What the particle and cable layers draw *)

Section VisualFacts.

Import Arc Cable Particles Visuals.
Local Open Scope R_scope.

Lemma floor_between (a b : Z) (x : R) :
  IZR a <= x <= IZR b -> (a <= floor x <= b)%Z.
Proof.
  intros [Ha Hb]. unfold floor.
  destruct (base_Int_part x) as [Hle Hgt]. split.
  - assert (H : (a < Int_part x + 1)%Z).
    { apply lt_IZR. rewrite plus_IZR. lra. }
    lia.
  - apply le_IZR. lra.
Qed.

Lemma floor_of_integer (n : Z) (x : R) : x = IZR n -> floor x = n.
Proof.
  intros ->. pose proof (@floor_between n n (IZR n)) as H.
  assert (n <= floor (IZR n) <= n)%Z by (apply H; lra). lia.
Qed.

Lemma wave_range (x amplitude offset : R) :
  0 <= amplitude ->
  offset - amplitude <= sin x * amplitude + offset <= offset + amplitude.
Proof.
  intros Ha. pose proof (SIN_bound x) as [Hlo Hhi]. split; nra.
Qed.

Lemma progress_range (frame : nat) (p : Particle) :
  0 <= phase p -> 0 <= progress frame p < 1.
Proof.
  intros Hphase. pose proof PI_RGT_0 as Hpi.
  assert (Hx : 0 <= INR frame * 0.02 + phase p).
  { pose proof (pos_INR frame). lra. }
  assert (Hy : 0 < 2 * PI) by lra.
  pose proof (fmod_bounds Hx Hy) as [Hlo Hhi]. unfold progress. split.
  - unfold Rdiv. apply Rmult_le_pos; [exact Hlo|].
    left. apply Rinv_0_lt_compat. exact Hy.
  - apply (Rmult_lt_reg_r (2 * PI)); [exact Hy|].
    unfold Rdiv. rewrite Rmult_assoc, Rinv_l by lra. lra.
Qed.

Lemma alpha_range (frame : nat) (p : Particle) :
  0 <= phase p -> 0.2 <= Positioned.alpha (positionAtFrame frame p) <= 1.
Proof.
  intros Hphase. pose proof PI_RGT_0 as Hpi.
  destruct (progress_range frame p Hphase) as [Hlo Hhi].
  unfold positionAtFrame. cbn [Positioned.alpha].
  set (t := progress frame p) in *.
  assert (0 <= sin (t * PI)).
  { apply sin_ge_0; [apply Rmult_le_pos; lra|].
    rewrite <- (Rmult_1_l PI) at 2. apply Rmult_le_compat_r; lra. }
  pose proof (SIN_bound (t * PI)) as [_ Hs]. lra.
Qed.

Lemma arcFrom_heights (cs : list Point) (q : Point) :
  In q (arcFrom cs) -> exists x y z, q = P3 x y z /\ 20 <= z <= 30.
Proof.
  unfold arcFrom, lastPoint. rewrite in_app_iff, in_flat_map.
  intros [([a b] & _ & [<-|[<-|[]]])|H].
  - eexists _, _, _. split; [reflexivity|lra].
  - eexists _, _, _. split; [reflexivity|].
    pose proof (sagFactor_bounds a b). cbn [fst snd]. lra.
  - destruct (nth_error cs (List.length cs - 1)); [|destruct H].
    destruct H as [<-|[]]. eexists _, _, _. split; [reflexivity|lra].
Qed.

Lemma status_color_cases (s : string) :
  (s = "down"%string /\ Colors.getStatusColor s = [255; 0; 0]%Z)
  \/ (s <> "down"%string /\ Colors.getStatusColor s = [255; 255; 0]%Z)
  \/ (s <> "down"%string /\ Colors.getStatusColor s = [0; 255; 0]%Z).
Proof.
  unfold Colors.getStatusColor.
  destruct (String.eqb_spec s "down"); [left; split; [assumption|reflexivity]|].
  destruct ((s =? "warning")%string || (s =? "high_load")%string);
    [right; left | right; right]; split; trivial.
Qed.

(** What [generateParticles] guarantees of each particle it emits. *)
Lemma generated_particle_facts
    (cables : option FeatureCollection) (p : Particle) :
  In p (generateParticles cables) ->
  0 <= phase p
  /\ (color p = [255; 255; 0]%Z \/ color p = [0; 255; 0]%Z)
  /\ exists sx sy sz ex ey ez,
       startPoint p = P3 sx sy sz /\ endPoint p = P3 ex ey ez
       /\ 20 <= sz <= 30 /\ 20 <= ez <= 30.
Proof.
  unfold generateParticles.
  destruct cables as [[[fs|]]|]; cbn [features]; [|intros []|intros []].
  rewrite in_flat_map. intros ([k line] & _ & Hp).
  unfold lineParticles in Hp. cbn [fst snd] in Hp.
  destruct (String.eqb_spec (Cable.status line) "down") as [|Hlive];
    [destruct Hp|].
  apply in_flat_map in Hp. destruct Hp as ([i [a b]] & Hseg & Hp).
  apply segmentParticles_In in Hp.
  destruct Hp as (_ & _ & Hs & He & Hc & Hj & Hph). cbn [fst snd] in Hs, He.
  split; [rewrite Hph; apply phase_in_turn; exact Hj|].
  split.
  { rewrite Hc.
    destruct (status_color_cases (Cable.status line))
      as [[Hd _]|[[_ Hy]|[_ Hg]]]; [contradiction|left|right]; assumption. }
  unfold indexed in Hseg. apply in_combine_r in Hseg.
  unfold segmentsOf in Hseg.
  assert (Ha : In a (createArcPath (coordinates line)))
    by (apply (in_combine_l _ _ _ _ Hseg)).
  assert (Hb : In b (createArcPath (coordinates line))).
  { apply in_combine_r in Hseg.
    destruct (createArcPath (coordinates line)); [destruct Hseg|].
    right. exact Hseg. }
  unfold createArcPath in Ha, Hb, Hseg.
  destruct (List.length (coordinates line) <? 2)%nat eqn:E.
  - apply Nat.ltb_lt in E.
    destruct (coordinates line) as [|c [|d rest]]; cbn in Hseg, E;
      [destruct Hseg | destruct Hseg | lia].
  - destruct (arcFrom_heights _ _ Ha) as (sx & sy & sz & -> & Hsz).
    destruct (arcFrom_heights _ _ Hb) as (ex & ey & ez & -> & Hez).
    exists sx, sy, sz, ex, ey, ez. rewrite Hs, He. auto.
Qed.

Lemma lerp_between (a b t : R) :
  0 <= t <= 1 -> Rmin a b <= lerp a b t <= Rmax a b.
Proof.
  intros Ht. unfold lerp, Rmin, Rmax.
  destruct (Rle_dec a b); split; nra.
Qed.

(** X7.  A particle never leaves its segment: at every frame each
    horizontal coordinate of its position lies between the corresponding
    coordinates of its start and end points, and its height is a number
    between 20 and 30 (between the deepest sag and the base height). *)
Theorem particle_stays_on_its_segment
    (cables : option FeatureCollection) (frame : nat) (p : Particle) :
  In p (generateParticles cables) ->
  exists x y z,
    Positioned.position (positionAtFrame frame p) = (x, y, Some z)
    /\ Rmin (px (startPoint p)) (px (endPoint p)) <= x
       <= Rmax (px (startPoint p)) (px (endPoint p))
    /\ Rmin (py (startPoint p)) (py (endPoint p)) <= y
       <= Rmax (py (startPoint p)) (py (endPoint p))
    /\ 20 <= z <= 30.
Proof.
  intros Hp.
  destruct (generated_particle_facts cables p Hp)
    as (Hphase & _ & sx & sy & sz & ex & ey & ez & Hs & He & Hsz & Hez).
  destruct (progress_range frame p Hphase) as [Hlo Hhi].
  assert (Ht : 0 <= progress frame p <= 1) by lra.
  unfold positionAtFrame. cbn [Positioned.position].
  unfold interpolatePosition. rewrite Hs, He. cbn [px py pz].
  eexists _, _, _. split; [reflexivity|].
  split; [apply lerp_between; exact Ht|].
  split; [apply lerp_between; exact Ht|].
  pose proof (lerp_between sz ez Ht) as [H1 H2].
  unfold Rmin in H1. unfold Rmax in H2.
  destruct (Rle_dec sz ez); lra.
Qed.

Lemma firstParticle_stays_on_its_segment :
  exists x y z,
    Positioned.position (positionAtFrame 100 firstParticle) = (x, y, Some z)
    /\ 20 <= z <= 30.
Proof.
  destruct (particle_stays_on_its_segment _ 100 firstParticle
              firstParticle_generated) as (x & y & z & Hpos & _ & _ & Hz).
  exists x, y, z. split; [exact Hpos|exact Hz].
Defined.

(** X8.  Every particle is drawn with a valid colour at every frame: the
    four channels of its fill colour are integers, red is 0 or at least 51,
    green lies between 51 and 255 and equals the opacity channel, blue is
    0; and its radius lies between 2 and 5. *)
Theorem particle_is_drawn_visibly
    (cables : option FeatureCollection) (frame : nat) (p : Particle) :
  In p (generateParticles cables) ->
  let d := positionAtFrame frame p in
  exists r g,
    getFillColor d = [Some r; Some g; Some 0%Z; Some g]
    /\ (r = 0%Z \/ r = g)
    /\ (51 <= g <= 255)%Z
    /\ 2 <= getRadius frame d <= 5.
Proof.
  intros Hp d.
  destruct (generated_particle_facts cables p Hp) as (Hphase & Hcol & _).
  pose proof (alpha_range frame p Hphase) as Ha. fold d in Ha.
  set (g := floor (Positioned.alpha d * 255)).
  assert (Hg : (51 <= g <= 255)%Z).
  { apply floor_between. cbn [IZR]. lra. }
  assert (Hlit : floor (IZR 255 * Positioned.alpha d) = g).
  { unfold g. f_equal. apply Rmult_comm. }
  assert (Hoff : floor (IZR 0 * Positioned.alpha d) = 0%Z).
  { apply floor_of_integer. cbn [IZR]. ring. }
  assert (Hcolor : Positioned.color d = color p) by reflexivity.
  assert (Hrad : 2 <= getRadius frame d <= 5).
  { unfold getRadius.
    pose proof (@wave_range
                  (INR frame * 0.1 + INR (particleIndex (Positioned.particle d)))
                  0.3 0.7) as Hw.
    assert (0 <= 0.3) by lra. specialize (Hw H). lra. }
  unfold getFillColor, scaled. rewrite Hcolor.
  destruct Hcol as [-> | ->]; cbn [nth_error option_map];
    rewrite ?Hlit, ?Hoff; fold g.
  - exists g, g. split; [reflexivity|]. split; [right; reflexivity|].
    split; [exact Hg|exact Hrad].
  - exists 0%Z, g. split; [reflexivity|]. split; [left; reflexivity|].
    split; [exact Hg|exact Hrad].
Qed.

Lemma firstParticle_is_drawn_visibly :
  exists r g,
    getFillColor (positionAtFrame 100 firstParticle)
    = [Some r; Some g; Some 0%Z; Some g]
    /\ (51 <= g <= 255)%Z.
Proof.
  destruct (particle_is_drawn_visibly _ 100 firstParticle
              firstParticle_generated) as (r & g & Hc & _ & Hg & _).
  exists r, g. split; [exact Hc|exact Hg].
Defined.

End VisualFacts.

Section CableLayerFacts.

Import Visuals.
Local Open Scope R_scope.

Lemma status_classes (s : string) :
  (s = "down"%string
   /\ Colors.getStatusColor s = [255; 0; 0]%Z
   /\ Colors.getStatusColorString s = "rgb(255, 0, 0)"%string)
  \/ (s <> "down"%string
      /\ Colors.getStatusColor s = [255; 255; 0]%Z
      /\ Colors.getStatusColorString s = "rgb(255, 255, 0)"%string)
  \/ (s <> "down"%string
      /\ Colors.getStatusColor s = [0; 255; 0]%Z
      /\ Colors.getStatusColorString s = "rgb(0, 255, 0)"%string).
Proof.
  unfold Colors.getStatusColor, Colors.getStatusColorString.
  destruct (String.eqb_spec s "down"); [left; auto|].
  destruct ((s =? "warning")%string || (s =? "high_load")%string);
    [right; left | right; right]; auto.
Qed.

Lemma scaled_lit (f : R) (rest : list Z) (lo hi : Z) :
  IZR lo <= 255 * f <= IZR hi ->
  exists c, scaled (255%Z :: rest) 0 f = Some c /\ (lo <= c <= hi)%Z.
Proof.
  intros H. unfold scaled. cbn [nth_error option_map].
  eexists. split; [reflexivity|]. apply floor_between. exact H.
Qed.

Lemma floor_zero_times (f : R) : floor (IZR 0 * f) = 0%Z.
Proof. apply floor_of_integer. cbn [IZR]. ring. Qed.

(** X9.  The cable layers always draw the status colour, dimmed but never
    shifted in hue: with [r0, g0, 0] the colour of the cable's status, the
    glow layer draws [r0 * 4 / 5, g0 * 4 / 5, 0] with an opacity between 6
    and 42; the flow layer keeps a zero channel at zero, draws a full
    channel between 102 and 255 (the same value for red and green when
    both are full) with an opacity between 51 and 255; and the background
    layer draws dark red [100, 0, 0, 100] for a down cable and
    [r0, g0, 0, 100] otherwise, never its red fallback. *)
Theorem cable_layers_draw_the_status_colour (frame : nat) (d : Properties) :
  exists r0 g0,
    Colors.getStatusColor (status d) = [r0; g0; 0]%Z
    /\ (r0 = 0 \/ r0 = 255)%Z
    /\ (g0 = 0 \/ g0 = 255)%Z
    /\ (exists a,
          glowColor frame d
          = [Some (r0 * 4 / 5)%Z; Some (g0 * 4 / 5)%Z; Some 0%Z; Some a]
          /\ (6 <= a <= 42)%Z)
    /\ (exists r g a,
          flowColor frame d = [Some r; Some g; Some 0%Z; Some a]
          /\ (r0 = 0%Z -> r = 0%Z)
          /\ (r0 = 255%Z -> (102 <= r <= 255)%Z)
          /\ (g0 = 0%Z -> g = 0%Z)
          /\ (g0 = 255%Z -> (102 <= g <= 255)%Z)
          /\ (r0 = g0 -> r = g)
          /\ (51 <= a <= 255)%Z)
    /\ backgroundColor d
       = (if (status d =? "down")%string then [100; 0; 0; 100]%Z
          else [r0; g0; 0; 100]%Z).
Proof.
  set (ts := INR frame * 0.05).
  assert (Hglow : (6 <= floor (60 * (sin (ts * 0.5) * 0.3 + 0.4)) <= 42)%Z).
  { apply floor_between. cbn [IZR].
    pose proof (@wave_range (ts * 0.5) 0.3 0.4). lra. }
  assert (Hop : (51 <= floor (255 * (sin ts * 0.4 + 0.6)) <= 255)%Z).
  { apply floor_between. cbn [IZR].
    pose proof (@wave_range ts 0.4 0.6). lra. }
  set (f := sin (ts * 1.5 + levelOf d * 0.5) * 0.3 + 0.7).
  assert (Hf : (102 <= floor (IZR 255 * f) <= 255)%Z).
  { apply floor_between. cbn [IZR]. unfold f.
    pose proof (@wave_range (ts * 1.5 + levelOf d * 0.5) 0.3 0.7). lra. }
  assert (H204 : floor (IZR 255 * 0.8) = 204%Z)
    by (apply floor_of_integer; cbn [IZR]; lra).
  assert (Hparse : forall fb,
             Colors.parseColorString fb (Colors.getStatusColorString (status d))
             = Colors.getStatusColor (status d)).
  { intros fb.
    destruct (status_classes (status d)) as [(_ & -> & ->)|[(_ & -> & ->)|(_ & -> & ->)]];
      reflexivity. }
  unfold glowColor, flowColor, backgroundColor,
    Colors.glowLayerRgb, Colors.flowLayerRgb.
  rewrite !Hparse. fold ts. fold f.
  destruct (status_classes (status d))
    as [(Hs & Hc & Hstr)|[(Hs & Hc & Hstr)|(Hs & Hc & Hstr)]];
    rewrite Hc, Hstr; unfold scaled; cbn [nth_error option_map];
    rewrite ?floor_zero_times, ?H204.
  - exists 255%Z, 0%Z. rewrite Hs. cbn [String.eqb Ascii.eqb Bool.eqb].
    split; [reflexivity|]. split; [right; reflexivity|].
    split; [left; reflexivity|].
    split; [eexists; split; [reflexivity|exact Hglow]|].
    split; [|reflexivity].
    eexists _, _, _. split; [reflexivity|].
    repeat split; intros; try discriminate; try reflexivity; lia.
  - exists 255%Z, 255%Z.
    destruct (String.eqb_spec (status d) "down"); [contradiction|].
    split; [reflexivity|]. split; [right; reflexivity|].
    split; [right; reflexivity|].
    split; [eexists; split; [reflexivity|exact Hglow]|].
    split; [|reflexivity].
    eexists _, _, _. split; [reflexivity|].
    repeat split; intros; try discriminate; try reflexivity; lia.
  - exists 0%Z, 255%Z.
    destruct (String.eqb_spec (status d) "down"); [contradiction|].
    split; [reflexivity|]. split; [left; reflexivity|].
    split; [right; reflexivity|].
    split; [eexists; split; [reflexivity|exact Hglow]|].
    split; [|reflexivity].
    eexists _, _, _. split; [reflexivity|].
    repeat split; intros; try discriminate; try reflexivity; lia.
Qed.

(** X10.  Cable widths follow the cable type at every frame: each layer
    draws a service cable no wider than a distribution cable and that no
    wider than a transmission cable; an unknown type is drawn like a
    distribution cable by the glow and background layers and like a
    service cable by the flow layer; and the widths stay within 3..25
    (glow), 3..10 (flow) and 3..6 (background). *)
Theorem cable_widths_follow_the_type
    (frame : nat) (s other : string) (l : option R) (d : Properties) :
  let typed t := {| status := s; cable_type := t; from_level := l |} in
  (glowWidth frame (typed "service"%string) <= glowWidth frame (typed "distribution"%string)
   /\ glowWidth frame (typed "distribution"%string)
      <= glowWidth frame (typed "transmission"%string))
  /\ (flowWidth frame (typed "service"%string) <= flowWidth frame (typed "distribution"%string)
      /\ flowWidth frame (typed "distribution"%string)
         <= flowWidth frame (typed "transmission"%string))
  /\ (backgroundWidth (typed "service"%string) < backgroundWidth (typed "distribution"%string)
      /\ backgroundWidth (typed "distribution"%string)
         < backgroundWidth (typed "transmission"%string))
  /\ (other <> "transmission"%string -> other <> "distribution"%string ->
      other <> "service"%string ->
      glowWidth frame (typed other) = glowWidth frame (typed "distribution"%string)
      /\ flowWidth frame (typed other) = flowWidth frame (typed "service"%string)
      /\ backgroundWidth (typed other) = backgroundWidth (typed "distribution"%string))
  /\ 3 <= glowWidth frame d <= 25
  /\ 3 <= flowWidth frame d <= 10
  /\ 3 <= backgroundWidth d <= 6.
Proof.
  intros typed.
  set (ts := INR frame * 0.05).
  assert (Hg : 0.2 <= sin (ts * 0.3) * 0.4 + 0.6 <= 1).
  { pose proof (@wave_range (ts * 0.3) 0.4 0.6). lra. }
  assert (Hf : 0.5 <= sin (ts * 0.8) * 0.25 + 0.75 <= 1).
  { pose proof (@wave_range (ts * 0.8) 0.25 0.75). lra. }
  unfold glowWidth, flowWidth, backgroundWidth. fold ts.
  split; [cbn; nra|]. split; [cbn; nra|]. split; [cbn; lra|].
  split.
  { intros H1 H2 H3. cbn [typed cable_type].
    destruct (String.eqb_spec other "transmission"); [contradiction|].
    destruct (String.eqb_spec other "distribution"); [contradiction|].
    destruct (String.eqb_spec other "service"); [contradiction|].
    cbn. repeat split. }
  destruct (cable_type d =? "transmission")%string;
    [|destruct (cable_type d =? "distribution")%string;
      [|destruct (cable_type d =? "service")%string]];
    repeat split; nra.
Qed.

End CableLayerFacts.

(** ** More on junctions and arc paths *)

Section JunctionMeasures.

Import Arc Cable Junctions JunctionSpec JunctionTrace Measures.
Local Open Scope R_scope.

Lemma get_of_entry (k : string) (j : Junction) (m : JMap) :
  NoDup (map fst m) -> In (k, j) m -> get k m = Some j.
Proof.
  induction m as [|[k' j'] m IH]; intros Hnd Hin; [destruct Hin|].
  inversion Hnd as [|? ? Hk Hnd']; subst. cbn [get].
  destruct Hin as [Heq|Hin].
  - injection Heq as -> ->. rewrite String.eqb_refl. reflexivity.
  - destruct (String.eqb_spec k k') as [->|Hne].
    + exfalso. apply Hk. apply in_map_iff. exists (k', j). auto.
    + apply IH; assumption.
Qed.

(** Every entry of the map is the closed form of its group. *)
Lemma entry_is_group (fs : list Feature) (k : string) (j : Junction) :
  In (k, j) (junctionPoints fs) -> junctionOf (group k fs) = Some j.
Proof.
  intros Hin. rewrite <- get_junctionPoints_group.
  apply get_of_entry; [|exact Hin].
  rewrite keys_junctionPoints. apply distinct_NoDup.
Qed.



Lemma totalCount_cons (k : string) (j : Junction) (m : JMap) :
  totalCount ((k, j) :: m) = (count j + totalCount m)%nat.
Proof. reflexivity. Qed.

Lemma totalCount_set_absent (k : string) (j : Junction) (m : JMap) :
  get k m = None -> totalCount (set k j m) = (totalCount m + count j)%nat.
Proof.
  induction m as [|[k' j'] m IH]; intros Hget.
  - cbn. lia.
  - cbn [get] in Hget. cbn [set].
    destruct (k =? k')%string; [discriminate|].
    rewrite !totalCount_cons, (IH Hget). lia.
Qed.

Lemma totalCount_set_present (k : string) (j j0 : Junction) (m : JMap) :
  get k m = Some j0 ->
  (totalCount (set k j m) + count j0 = totalCount m + count j)%nat.
Proof.
  induction m as [|[k' j'] m IH]; intros Hget.
  - discriminate.
  - cbn [get] in Hget. cbn [set].
    destruct (k =? k')%string.
    + injection Hget as ->. rewrite !totalCount_cons. lia.
    + rewrite !totalCount_cons. specialize (IH Hget). lia.
Qed.

Lemma totalCount_visit (m : JMap) (v : Visit) :
  totalCount (visit m v) = S (totalCount m).
Proof.
  unfold visit, visitCoord.
  set (key := junctionKey (snd v)).
  assert (Hinc : forall m1 j1,
             get key m1 = Some j1 ->
             totalCount (set key (increment j1) m1) = S (totalCount m1)).
  { intros m1 j1 H1.
    pose proof (totalCount_set_present key (increment j1) m1 H1) as H.
    cbn [increment count] in H. lia. }
  assert (Hupd : forall j1 existing,
             get key m = Some existing -> count j1 = count existing ->
             totalCount (set key j1 m) = totalCount m).
  { intros j1 existing He Hc.
    pose proof (totalCount_set_present key j1 m He) as H. lia. }
  destruct (get key m) as [existing|] eqn:Hget.
  - destruct (((fst v =? "down") && negb (Junctions.status existing =? "down"))%string).
    + rewrite get_set_same, (Hinc _ _ (get_set_same _ _ _)).
      f_equal. apply (Hupd _ existing eq_refl). reflexivity.
    + destruct (((fst v =? "warning")
                 && (Junctions.status existing =? "operational"))%string).
      * rewrite get_set_same, (Hinc _ _ (get_set_same _ _ _)).
        f_equal. apply (Hupd _ existing eq_refl). reflexivity.
      * rewrite Hget. apply Hinc. exact Hget.
  - rewrite get_set_same, (Hinc _ _ (get_set_same _ _ _)).
    f_equal. rewrite totalCount_set_absent by exact Hget. cbn. lia.
Qed.

Lemma totalCount_fold (vs : list Visit) :
  forall m, totalCount (fold_left visit vs m)
            = (totalCount m + List.length vs)%nat.
Proof.
  induction vs as [|v vs IH]; intros m; cbn [fold_left List.length]; [lia|].
  rewrite IH, totalCount_visit. lia.
Qed.

Lemma visits_length (fs : list Feature) :
  List.length (visits fs)
  = list_sum (map (fun line => List.length (coordinates line)) fs).
Proof.
  unfold visits. rewrite length_flat_map. f_equal.
  apply map_ext. intros line. apply length_map.
Qed.

(** X12.  Grouping loses no coordinate and invents none: the connection
    counts of the junction map add up to the number of coordinates of all
    cables, every entry counts at least one connection, and no two entries
    share a key. *)
Theorem junction_counts_add_up (fs : list Feature) :
  totalCount (junctionPoints fs)
  = list_sum (map (fun line => List.length (coordinates line)) fs)
  /\ Forall (fun entry => (1 <= count (snd entry))%nat) (junctionPoints fs)
  /\ NoDup (map fst (junctionPoints fs)).
Proof.
  split.
  { rewrite junctionPoints_visits, totalCount_fold, visits_length.
    reflexivity. }
  split.
  { apply Forall_forall. intros [k j] Hin.
    pose proof (entry_is_group fs k j Hin) as Hj. unfold junctionOf in Hj.
    destruct (group k fs) as [|first rest]; [discriminate|].
    injection Hj as <-. cbn. lia. }
  rewrite keys_junctionPoints. apply distinct_NoDup.
Qed.

Lemma everyOther_arcFrom (cs : list Point) :
  map planar (everyOther (arcFrom cs)) = map planar cs.
Proof.
  induction cs as [|c cs IH]; [reflexivity|].
  destruct cs as [|d cs]; [reflexivity|].
  rewrite arcFrom_cons. cbn [everyOther map]. rewrite IH. reflexivity.
Qed.

(** X13.  The arc path passes over every waypoint, in order: dropping the
    points at the odd positions (the inserted midpoints) gives back the
    planar coordinates of the input, for inputs of any length; and on two
    or more waypoints every point of the path has a height between 20 and
    30. *)
Theorem arc_path_keeps_the_waypoints (coordinates : list Point) :
  map planar (everyOther (createArcPath coordinates)) = map planar coordinates
  /\ ((2 <= List.length coordinates)%nat ->
      Forall (fun q => exists z, pz q = Some z /\ 20 <= z <= 30)
             (createArcPath coordinates)).
Proof.
  split.
  - unfold createArcPath.
    destruct (Nat.ltb_spec (List.length coordinates) 2) as [Hs|Hl].
    + destruct coordinates as [|c [|d rest]]; try reflexivity.
      cbn in Hs. lia.
    + apply everyOther_arcFrom.
  - intros Hlen. rewrite createArcPath_long by exact Hlen.
    apply Forall_forall. intros q Hq.
    destruct (arcFrom_heights _ _ Hq) as (x & y & z & -> & Hz).
    exists z. split; [reflexivity|exact Hz].
Qed.

End JunctionMeasures.

(** ** Flood folders, timestamps and the files they select *)

Section FloodDataFacts.

Import Timeline FloodData.
Local Open Scope string_scope.

Lemma literal_app (pre s : string) : literal pre (pre ++ s) = Some s.
Proof.
  induction pre as [|a pre IH]; [destruct s; reflexivity|].
  cbn. rewrite Ascii.eqb_refl. exact IH.
Qed.

Lemma digits_app (n : nat) :
  forall ds rest,
    digitString n ds = true -> digits n (ds ++ rest) = Some (ds, rest).
Proof.
  induction n as [|n IH]; intros ds rest H.
  - destruct ds; [reflexivity|discriminate].
  - destruct ds as [|c ds]; [discriminate|]. cbn in H.
    apply andb_true_iff in H. destruct H as [Hc Hds].
    cbn. rewrite Hc, (IH ds rest Hds). reflexivity.
Qed.

Lemma digitString_length (n : nat) :
  forall ds, digitString n ds = true -> String.length ds = n.
Proof.
  induction n as [|n IH]; intros ds H.
  - destruct ds; [reflexivity|discriminate].
  - destruct ds as [|c ds]; [discriminate|]. cbn in H.
    apply andb_true_iff in H. cbn. f_equal. apply IH. tauto.
Qed.

Lemma matchHere_well_formed (y mo d h mi se rest : string) :
  digitString 4 y = true -> digitString 2 mo = true ->
  digitString 2 d = true -> digitString 2 h = true ->
  digitString 2 mi = true -> digitString 2 se = true ->
  matchHere (PREFIX ++ y ++ mo ++ d ++ "_" ++ h ++ mi ++ se ++ rest)
  = Some {| year := y; month := mo; day := d;
            hour := h; minute := mi; second := se |}.
Proof.
  intros Hy Hmo Hd Hh Hmi Hse. unfold matchHere.
  rewrite literal_app, (digits_app 4 _ _ Hy), (digits_app 2 _ _ Hmo),
    (digits_app 2 _ _ Hd), literal_app, (digits_app 2 _ _ Hh),
    (digits_app 2 _ _ Hmi), (digits_app 2 _ _ Hse).
  reflexivity.
Qed.

Lemma folderMatch_here (s : string) (g : Groups) :
  matchHere s = Some g -> folderMatch s = Some g.
Proof. intros H. destruct s; cbn [folderMatch]; rewrite H; reflexivity. Qed.

(** X14.  A folder named [waterdepth_YYYYMMDD_HHMMSS], whatever follows the
    seconds, becomes the timestep whose key is the folder name itself and
    whose label is [YYYY-MM-DD HH:MM], sixteen characters that do not show
    the seconds. *)
Theorem folder_name_gives_label (y mo d h mi se rest : string) :
  digitString 4 y = true -> digitString 2 mo = true ->
  digitString 2 d = true -> digitString 2 h = true ->
  digitString 2 mi = true -> digitString 2 se = true ->
  let folder := PREFIX ++ y ++ mo ++ d ++ "_" ++ h ++ mi ++ se ++ rest in
  let label := y ++ "-" ++ mo ++ "-" ++ d ++ " " ++ h ++ ":" ++ mi in
  parseFolder folder = Some {| time := folder; display := label |}
  /\ String.length label = 16%nat.
Proof.
  intros Hy Hmo Hd Hh Hmi Hse folder label. split.
  - unfold parseFolder, folder, label.
    rewrite (folderMatch_here _
               (@matchHere_well_formed y mo d h mi se rest Hy Hmo Hd Hh Hmi Hse)).
    reflexivity.
  - unfold label. rewrite !length_append.
    rewrite (digitString_length _ _ Hy), (digitString_length _ _ Hmo),
      (digitString_length _ _ Hd), (digitString_length _ _ Hh),
      (digitString_length _ _ Hmi).
    reflexivity.
Qed.

Lemma firstNight_label :
  parseFolder firstNight
  = Some {| time := firstNight; display := "2022-10-24 00:00" |}.
Proof.
  exact (proj1 (@folder_name_gives_label "2022" "10" "24" "00" "00" "00" EmptyString
                  eq_refl eq_refl eq_refl eq_refl eq_refl eq_refl)).
Defined.

Lemma parseFolder_time (folder : string) (t : Timestep) :
  parseFolder folder = Some t -> time t = folder.
Proof.
  unfold parseFolder. destruct (folderMatch folder); [|discriminate].
  intros H. injection H as <-. reflexivity.
Qed.

Lemma infrastructureTimeStr_prefixed (rest : string) :
  infrastructureTimeStr (PREFIX ++ rest) = rest.
Proof.
  unfold infrastructureTimeStr, PREFIX. cbn.
  replace (String.prefix EmptyString rest) with true
    by (destruct rest; reflexivity).
  rewrite ?Nat.sub_0_r. apply substring_all.
Qed.

(** X15.  A flood folder selects its own files: the timestep parsed from
    the folder [waterdepth_X] asks for the infrastructure file
    [infrastructure_X.json] and for the tiles under
    [data/flood_tiles/waterdepth_X]; without a timestep the base file is
    asked for; and each of the 48 default timesteps, whose keys lack the
    prefix, asks for the file named after its whole key. *)
Theorem folder_selects_its_files (rest : string) (t : Timestep) :
  parseFolder (PREFIX ++ rest) = Some t ->
  infrastructureUrl (Some t)
  = "data/time_series_infrastructure/infrastructure_" ++ rest ++ ".json"
  /\ floodTilesUrl t
     = "data/flood_tiles/waterdepth_" ++ rest ++ "/{z}/{x}/{y}.png"
  /\ infrastructureUrl None = "data/hierarchical_infrastructure.json"
  /\ Forall (fun u => infrastructureUrl (Some u)
                      = "data/time_series_infrastructure/infrastructure_"
                        ++ time u ++ ".json")
            generateDefaultTimesteps.
Proof.
  intros Hparse. apply parseFolder_time in Hparse.
  split.
  { unfold infrastructureUrl. rewrite Hparse, infrastructureTimeStr_prefixed.
    reflexivity. }
  split; [unfold floodTilesUrl; rewrite Hparse; reflexivity|].
  split; [reflexivity|].
  unfold generateDefaultTimesteps. cbn [seq flat_map map app].
  repeat (constructor; [reflexivity|]). constructor.
Qed.

Lemma firstNight_parsed :
  parseFolder firstNight
  = Some {| time := firstNight; display := "2022-10-24 00:00" |}.
Proof. reflexivity. Qed.

Lemma firstNight_files :
  infrastructureUrl
    (Some {| time := firstNight; display := "2022-10-24 00:00" |})
  = "data/time_series_infrastructure/infrastructure_20221024_000000.json"
  /\ floodTilesUrl {| time := firstNight; display := "2022-10-24 00:00" |}
     = "data/flood_tiles/waterdepth_20221024_000000/{z}/{x}/{y}.png".
Proof.
  destruct (@folder_selects_its_files "20221024_000000" _ firstNight_parsed)
    as (Hi & Ht & _).
  split; [exact Hi|exact Ht].
Defined.

End FloodDataFacts.

Section LoadingFacts.

Import Timeline FloodData.
Local Open Scope Z_scope.

Variable localeCompare : string -> string -> Z.






End LoadingFacts.

Section SortingFacts.

Import Timeline FloodData.
Local Open Scope Z_scope.

Variable localeCompare : string -> string -> Z.

Hypothesis asymmetric :
  forall a b, localeCompare a b < 0 -> ~ localeCompare b a < 0.
Hypothesis transitive :
  forall a b c,
    localeCompare a b < 0 -> localeCompare b c < 0 -> localeCompare a c < 0.

Lemma insertByTime_all (P : Timestep -> Prop) (t : Timestep) (l : list Timestep) :
  P t -> Forall P l -> Forall P (insertByTime localeCompare t l).
Proof.
  intros Ht Hl. induction Hl as [|u l Hu Hl IH]; cbn [insertByTime].
  - constructor; [exact Ht|constructor].
  - destruct (localeCompare (time t) (time u) <? 0); repeat constructor; assumption.
Qed.

Lemma insertByTime_sorted (t : Timestep) (l : list Timestep) :
  StronglySorted (notBefore localeCompare) l ->
  StronglySorted (notBefore localeCompare) (insertByTime localeCompare t l).
Proof.
  intros Hs. induction Hs as [|u l Hs IH Hall]; cbn [insertByTime].
  - constructor; constructor.
  - destruct (Z.ltb_spec (localeCompare (time t) (time u)) 0) as [Hlt|Hge].
    + constructor; [constructor; assumption|].
      constructor.
      * unfold notBefore. apply asymmetric. exact Hlt.
      * rewrite Forall_forall in Hall. apply Forall_forall. intros w Hw.
        specialize (Hall w Hw). unfold notBefore in *. intros Hwt.
        apply Hall. apply (transitive Hwt Hlt).
    + constructor; [exact IH|].
      apply insertByTime_all; [|exact Hall].
      unfold notBefore. lia.
Qed.

(** X17.  When the collation is a strict order (asymmetric and
    transitive), the timestamps come out of the sort in order of their
    keys: no timestep is followed, anywhere later in the list, by one whose
    key sorts before its own. *)
Theorem flood_timestamps_are_sorted (ts : list Timestep) :
  StronglySorted (notBefore localeCompare) (sortByTime localeCompare ts).
Proof.
  unfold sortByTime.
  assert (H : forall acc,
             StronglySorted (notBefore localeCompare) acc ->
             StronglySorted (notBefore localeCompare)
               (fold_left (fun sorted t => insertByTime localeCompare t sorted)
                          ts acc)).
  { induction ts as [|t ts IH]; intros acc Hacc; cbn [fold_left]; [exact Hacc|].
    apply IH. apply insertByTime_sorted. exact Hacc. }
  apply H. constructor.
Qed.

End SortingFacts.

Section SortingExample.

Import Timeline FloodData.
Local Open Scope Z_scope.

Lemma sorted_by_length_example :
  StronglySorted (notBefore byLength)
    (sortByTime byLength
       [{| time := "waterdepth_20221024_000000_b"; display := "later" |};
        {| time := "waterdepth_20221024_000000"; display := "sooner" |}]).
Proof.
  apply flood_timestamps_are_sorted; unfold byLength; intros; lia.
Defined.

End SortingExample.

Section InfrastructureFacts.

Import Timeline FloodData.


End InfrastructureFacts.

(** ** Where a particle comes from *)

Section ParticleOrigin.

Import Arc Cable Particles.






End ParticleOrigin.

(** ** Junction keys around zero *)

Section KeySigns.

Import Arc Junctions Measures.
Local Open Scope R_scope.

(** X19.  A negative and a non-negative number never get the same
    [toFixed] text, even when both round to zero ([-0.000000] against
    [0.000000]); so two coordinates on either side of zero never share a
    junction key, however close they are. *)
Theorem keys_split_at_zero (f : nat) (x y : R) :
  x < 0 -> 0 <= y ->
  toFixed f x <> toFixed f y
  /\ forall a b, junctionKey (P2 x a) <> junctionKey (P2 y b).
Proof.
  intros Hx Hy.
  assert (Hsx : forall g, startsWithMinus (toFixed g x) = true).
  { intros g. destruct (toFixed_sign g x) as [_ H]. rewrite H.
    destruct (Rlt_dec x 0); [reflexivity|lra]. }
  assert (Hsy : forall g, startsWithMinus (toFixed g y) = false).
  { intros g. destruct (toFixed_sign g y) as [_ H]. rewrite H.
    destruct (Rlt_dec y 0); [lra|reflexivity]. }
  split.
  - intros E. specialize (Hsx f). rewrite E, Hsy in Hsx. discriminate.
  - intros a b E. unfold junctionKey in E. cbn [px py] in E.
    assert (H : startsWithMinus (toFixed 6 x ++ "," ++ toFixed 6 a)
                = startsWithMinus (toFixed 6 y ++ "," ++ toFixed 6 b))
      by (rewrite E; reflexivity).
    rewrite !startsWithMinus_append in H by apply toFixed_sign.
    rewrite Hsx, Hsy in H. discriminate.
Qed.

Lemma keys_split_just_around_zero :
  toFixed 6 (-0.0000001) = "-0.000000"%string
  /\ toFixed 6 0.0000001 = "0.000000"%string
  /\ junctionKey (P2 (-0.0000001) 0) <> junctionKey (P2 0.0000001 0).
Proof.
  split; [|split].
  - rewrite (@toFixed_negative 6 _ 0%Z) by (simpl pow; lra). reflexivity.
  - rewrite (@toFixed_nonneg 6 _ 0%Z) by (simpl pow; lra). reflexivity.
  - assert (Hx : -0.0000001 < 0) by lra.
    assert (Hy : 0 <= 0.0000001) by lra.
    exact (proj2 (@keys_split_at_zero 6 _ _ Hx Hy) 0 0).
Defined.

End KeySigns.
